(** * FlappyBirb: the state-evolution core of src/main.ts

    A shallow embedding of the reducers of [state$] and of the pure helpers
    they use.  Two revisions of main.ts are covered: the one with the
    wall-clock tick and the separate ghost reducer stream, and the later one
    with the pause gate, whose tick advances the elapsed time by the tick
    period and computes the ghost position itself.

    JavaScript numbers are embedded as exact rationals ([Q]): comparisons
    [<=], [>=], [>] become [Qle_bool], [===] becomes [Qeq_bool].  Counters
    that only ever hold integers ([birbLives], [score]) are [Z] and [nat].
    Optional fields ([pipeRead?], [invinciblePipeTime?], ...) are options.
    The generator, whose values are integers of up to 61 bits, rounds its
    product and its sum to binary64 as the code does. *)

From Stdlib Require Import List Bool ZArith QArith Qround Qabs Qreduction.
From Stdlib Require Import Qpower Lia Lqa Sorted.
Import ListNotations.
Open Scope Q_scope.

(** ** JavaScript number helpers *)

(** [x > y] on numbers. *)
Definition Qgt_bool (x y : Q) : bool := negb (Qle_bool x y).

(** Truncation toward zero, the quotient used by the [%] operator. *)
Definition Qtrunc (x : Q) : Z := Z.quot (Qnum x) (Zpos (Qden x)).

(** The [%] operator: the result takes the sign of the dividend. *)
Definition js_rem (x m : Q) : Q := x - m * inject_Z (Qtrunc (x / m)).

(** The nearest integer, ties to the even one. *)
Definition round_half_even (x : Q) : Z :=
  let f := Qfloor x in
  match Qcompare (x - inject_Z f) (1 # 2) with
  | Lt => f
  | Gt => (f + 1)%Z
  | Eq => if Z.even f then f else (f + 1)%Z
  end.

(** The exponent of the last bit of the 53-bit significand of a positive
    number, not below the one of the subnormal numbers. *)
Definition ulp_exp (x : Q) : Z :=
  let k := (Z.log2 (Qnum x) - Z.log2 (Zpos (Qden x)))%Z in
  Z.max (-1074) (if Qle_bool (2 ^ k) x then k - 52 else k - 53).

(** The binary64 number an arithmetic operation returns for the exact
    result [x]: the nearest number with a 53-bit significand, ties to
    even.  Results are taken to be finite: an [x] of 2^1024 or more,
    which the code turns into [Infinity], is outside the embedding. *)
Definition binary64 (x : Q) : Q :=
  let r := Qred x in
  let a := Qabs r in
  let e := ulp_exp a in
  let m := inject_Z (round_half_even (a / 2 ^ e)) * 2 ^ e in
  if Qle_bool 0 r then m else - m.

(** [a !== b] where [a] may be [undefined]. *)
Definition opt_neq (a : option Q) (b : Q) : bool :=
  match a with
  | Some x => negb (Qeq_bool x b)
  | None => true
  end.

(** [a !== undefined && a === b]. *)
Definition opt_is (a : option Q) (b : Q) : bool :=
  match a with
  | Some x => Qeq_bool x b
  | None => false
  end.

(** ** Constants *)

Module Viewport.
Definition CANVAS_WIDTH : Q := 600.
Definition CANVAS_HEIGHT : Q := 400.
End Viewport.

Module Birb.
Definition WIDTH : Q := 42.
Definition HEIGHT : Q := 30.
Definition GRAVITY : Q := 6 # 10.
End Birb.

Module Constants.
Definition PIPE_WIDTH : Q := 50.
Definition TICK_RATE_MS : Q := 16.
Definition PIPE_TRAVEL_MS : Q := 3000.
End Constants.

Module Bounce.
Definition SPREAD : Q := 4.
Definition MEAN : Q := 8.
Definition SEED : Q := 1234.
End Bounce.

(** The winning score tested by [s.score === 20]. *)
Definition WIN_SCORE : nat := 20.

(** ** class RNG *)

Module RNG.
Definition m : Q := 2147483648.
Definition a : Q := 1103515245.
Definition c : Q := 12345.

(** [(RNG.a * seed + RNG.c) % RNG.m]: the product and the sum are
    rounded, the remainder of two binary64 numbers is exact. *)
Definition hash (seed : Q) : Q :=
  js_rem (binary64 (binary64 (a * seed) + c)) m.

Definition scale (hash : Q) : Q := (2 * hash) / (m - 1) - 1.
End RNG.

(** ** Pipes *)

Record Pipe := mkPipe {
  gapY : Q;
  gapHeight : Q;
  time : Q;
  age : Q;
  xpos : Q;
  prevXpos : Q;
  birdPassing : bool;
  prevPassing : bool;
  passed : bool;
  gapTop : Q;
  gapBottom : Q
}.

(** One data row of the CSV after [split(",")] and [Number]:
    gap centre fraction, gap height fraction, spawn time in seconds. *)
Definition Row : Type := (Q * Q * Q)%type.

(** The body of the [map] that builds [pipeProperties]. *)
Definition pipeOfRow (r : Row) : Pipe :=
  let '(gapYf, gapHf, t) := r in
  let gy := gapYf * Viewport.CANVAS_HEIGHT in
  let gh := gapHf * Viewport.CANVAS_HEIGHT in
  let gapTop := gy - gh / 2 in
  let gapBottom := gy + gh / 2 - Birb.HEIGHT in
  let startX := Viewport.CANVAS_WIDTH in
  {| gapY := gapYf;
     gapHeight := gapHf;
     time := t * 1000;
     age := 0;
     xpos := Viewport.CANVAS_WIDTH;
     prevXpos := startX;
     birdPassing := false;
     prevPassing := false;
     passed := false;
     gapTop := gapTop;
     gapBottom := gapBottom |}.

Definition pipeProperties (rows : list Row) : list Pipe := map pipeOfRow rows.

(** Locals of the tick reducer that do not depend on the state. *)
Definition floor : Q := Viewport.CANVAS_HEIGHT - Birb.HEIGHT.
Definition travel : Q := Constants.PIPE_TRAVEL_MS.
Definition distance : Q := Viewport.CANVAS_WIDTH + Constants.PIPE_WIDTH.
Definition BIRB_X : Q := Viewport.CANVAS_WIDTH * (3 # 10) - Birb.WIDTH / 2.
Definition BIRB_REAR : Q := BIRB_X + Birb.WIDTH.

(** [clamp01] ([clampRatio] in the later revision). *)
Definition clamp01 (x : Q) : Q :=
  if Qle_bool x 0 then 0 else if Qle_bool 1 x then 1 else x.

Definition pipeXposAtAge (age : Q) : Q :=
  let prog := clamp01 (age / travel) in
  Viewport.CANVAS_WIDTH - distance * prog.

Definition clampToPipeGap (p : Pipe) (y : Q) : Q :=
  if Qle_bool y (gapTop p) then gapTop p
  else if Qle_bool (gapBottom p) y then gapBottom p
  else y.

Definition outsideGapY (p : Pipe) (y : Q) : bool :=
  Qle_bool y (gapTop p) || Qle_bool (gapBottom p) y.

Definition hitTopSide (p : Pipe) (y : Q) : bool := Qle_bool y (gapTop p).

(** The body of the [map] that builds [pipeQueueUpdated]. *)
Definition updatePipe (currentTime : Q) (p : Pipe) : Pipe :=
  let age := currentTime - time p in
  let newX := pipeXposAtAge age in
  let prevXpos := xpos p in
  let xpos := newX in
  let prevPassing := birdPassing p in
  let birdPassing :=
    if Qle_bool xpos BIRB_REAR && Qle_bool BIRB_X (xpos + Constants.PIPE_WIDTH)
    then true else false in
  let passed :=
    if Qgt_bool BIRB_X (xpos + Constants.PIPE_WIDTH) then true else passed p in
  {| gapY := gapY p;
     gapHeight := gapHeight p;
     time := time p;
     age := age;
     xpos := xpos;
     prevXpos := prevXpos;
     birdPassing := birdPassing;
     prevPassing := prevPassing;
     passed := passed;
     gapTop := gapTop p;
     gapBottom := gapBottom p |}.

(** ** State *)

(** The fields [pipeHistory?] and [pipePassing?] of the type are never
    assigned by any reducer and are left out.  [paused] exists only in the
    revision with the pause gate; the reducers of the earlier revision
    neither read nor write it. *)
Record State := mkState {
  birbPosition : Q;
  birbVelocity : Q;
  birbLives : Z;
  timeStart : Q;
  elapsedTime : Q;
  score : nat;
  gameOver : bool;
  pipeRead : option (list Pipe);
  pipeRendering : option (list Pipe);
  rngSeed : Q;
  invinciblePipeTime : option Q;
  ghostBirbPos : option Q;
  paused : bool
}.

(** [initialState], with the two [performance.now()] samples it takes
    (run start, and in the later revision the seed) as arguments. *)
Definition initialState (timeStart0 seed0 : Q) : State :=
  {| birbPosition := 200;
     birbVelocity := 0;
     birbLives := 3;
     timeStart := timeStart0;
     elapsedTime := 0;
     score := 0;
     gameOver := false;
     pipeRead := None;
     pipeRendering := None;
     rngSeed := seed0;
     invinciblePipeTime := None;
     ghostBirbPos := None;
     paused := false |}.

(** [s.gameOver || s.score === 20] *)
Definition gameEnd (s : State) : bool :=
  gameOver s || Nat.eqb (score s) WIN_SCORE.

(** [{ ...s, birbVelocity: v }] *)
Definition set_birbVelocity (v : Q) (s : State) : State :=
  {| birbPosition := birbPosition s;
     birbVelocity := v;
     birbLives := birbLives s;
     timeStart := timeStart s;
     elapsedTime := elapsedTime s;
     score := score s;
     gameOver := gameOver s;
     pipeRead := pipeRead s;
     pipeRendering := pipeRendering s;
     rngSeed := rngSeed s;
     invinciblePipeTime := invinciblePipeTime s;
     ghostBirbPos := ghostBirbPos s;
     paused := paused s |}.

(** [{ ...s, ghostBirbPos: g }] *)
Definition set_ghostBirbPos (g : option Q) (s : State) : State :=
  {| birbPosition := birbPosition s;
     birbVelocity := birbVelocity s;
     birbLives := birbLives s;
     timeStart := timeStart s;
     elapsedTime := elapsedTime s;
     score := score s;
     gameOver := gameOver s;
     pipeRead := pipeRead s;
     pipeRendering := pipeRendering s;
     rngSeed := rngSeed s;
     invinciblePipeTime := invinciblePipeTime s;
     ghostBirbPos := g;
     paused := paused s |}.

(** [{ ...s, paused }] *)
Definition set_paused (b : bool) (s : State) : State :=
  {| birbPosition := birbPosition s;
     birbVelocity := birbVelocity s;
     birbLives := birbLives s;
     timeStart := timeStart s;
     elapsedTime := elapsedTime s;
     score := score s;
     gameOver := gameOver s;
     pipeRead := pipeRead s;
     pipeRendering := pipeRendering s;
     rngSeed := rngSeed s;
     invinciblePipeTime := invinciblePipeTime s;
     ghostBirbPos := ghostBirbPos s;
     paused := b |}.

(** ** The flap reducer *)

Definition flap (s : State) : State :=
  if gameEnd s then s else set_birbVelocity (-7) s.

(** ** The tick reducer

    Everything below the early return of the tick reducer is the same text
    in both revisions once [currentTime] is fixed, so its locals are
    functions of the schedule, of [currentTime] and of the previous
    state. *)

Section Tick.

Variable rows : list Row.
Variable currentTime : Q.
Variable s : State.

Definition updatedBirbVelocity : Q := birbVelocity s + Birb.GRAVITY.

Definition newBirbPositionUnbound : Q := birbPosition s + updatedBirbVelocity.

(** [s.pipeRead ?? pipeProperties] *)
Definition pipeQueue : list Pipe :=
  match pipeRead s with
  | Some q => q
  | None => pipeProperties rows
  end.

Definition pipeQueueUpdated : list Pipe := map (updatePipe currentTime) pipeQueue.

Definition pipeQueuePass : list Pipe :=
  filter (fun p => Qle_bool (time p) currentTime) pipeQueueUpdated.

Definition nextPipe : list Pipe :=
  filter (fun p => Qle_bool 0 (age p) && Qle_bool (age p) travel) pipeQueuePass.

Definition currentPipePassing : option Pipe :=
  find (fun p => Bool.eqb (birdPassing p) true) pipeQueuePass.

Definition updatedBirbPosition : Q :=
  if Qle_bool newBirbPositionUnbound 0 then 0
  else if Qle_bool floor newBirbPositionUnbound then floor
  else newBirbPositionUnbound.

Definition hitCanvas : bool :=
  if Qeq_bool updatedBirbPosition floor then true
  else if Qeq_bool updatedBirbPosition 0 then true
  else false.

Definition overlapping : option Pipe := currentPipePassing.

Definition firstHitThisPipe : bool :=
  match overlapping with
  | Some o =>
      outsideGapY o updatedBirbPosition
      && opt_neq (invinciblePipeTime s) (time o)
  | None => false
  end.

(** [keepPiercing] ([keepPhasing] in the later revision). *)
Definition keepPiercing : bool :=
  match overlapping with
  | Some o => opt_is (invinciblePipeTime s) (time o)
  | None => false
  end.

Definition isSideEntry : bool :=
  match overlapping with
  | Some o => firstHitThisPipe && negb (prevPassing o) && birdPassing o
  | None => false
  end.

Definition shouldClamp : bool :=
  match overlapping with
  | Some _ => firstHitThisPipe && negb isSideEntry
  | None => false
  end.

Definition newBirbPosition : Q :=
  match overlapping with
  | Some o =>
      if shouldClamp then clampToPipeGap o updatedBirbPosition
      else updatedBirbPosition
  | None => updatedBirbPosition
  end.

(** [hitTopSidePipe] ([hitPipeTop] in the later revision). *)
Definition hitTopSidePipe : bool :=
  match overlapping with
  | Some o => firstHitThisPipe && hitTopSide o updatedBirbPosition
  | None => false
  end.

Definition hitCanvasTop : bool := Qeq_bool updatedBirbPosition 0.

Definition collideFrame : bool := firstHitThisPipe || hitCanvas.

Definition seed1 : Q := if collideFrame then RNG.hash (rngSeed s) else rngSeed s.

Definition r : Q := if collideFrame then RNG.scale seed1 else 0.

Definition bounce : Q :=
  if collideFrame then Bounce.MEAN + Bounce.SPREAD * r else 0.

Definition newBirbVelocity : Q :=
  if negb collideFrame then updatedBirbVelocity
  else if hitCanvasTop || hitTopSidePipe then bounce
  else - bounce.

Definition newBirbLives : Z :=
  if firstHitThisPipe || hitCanvas
  then (if (birbLives s - 1 <=? 0)%Z then 0%Z else (birbLives s - 1)%Z)
  else birbLives s.

Definition invinciblePipeTime2 : option Q :=
  match overlapping with
  | Some o =>
      if firstHitThisPipe then Some (time o)
      else if keepPiercing then invinciblePipeTime s
      else None
  | None => None
  end.

Definition scoreUpdate : nat :=
  length (filter (fun p => Bool.eqb (passed p) true) pipeQueuePass).

Definition newGameOver : bool := if (newBirbLives =? 0)%Z then true else false.

Definition rngSeed2 : Q := if collideFrame then seed1 else rngSeed s.

(** The object returned by the tick reducer past its early return;
    [ghost] is the value of the [ghostBirbPos] field ([s.ghostBirbPos]
    where the revision does not assign it). *)
Definition tickResult (ghost : option Q) : State :=
  {| birbPosition := newBirbPosition;
     birbVelocity := newBirbVelocity;
     birbLives := newBirbLives;
     timeStart := timeStart s;
     elapsedTime := currentTime;
     score := scoreUpdate;
     gameOver := newGameOver;
     pipeRead := Some pipeQueueUpdated;
     pipeRendering := Some nextPipe;
     rngSeed := rngSeed2;
     invinciblePipeTime := invinciblePipeTime2;
     ghostBirbPos := ghost;
     paused := paused s |}.

End Tick.

(** ** The ghost path *)

Module Path.
(** One recorded sample [{ t, y }]. *)
Record Point := mkPoint { t : Q; y : Q }.
End Path.

(** [path.reduce((best, pt, i) => (pt.t <= t ? i : best), 0)], with the
    running index [i] made explicit. *)
Fixpoint reduceIdx (path : list Path.Point) (t : Q) (i best : nat) : nat :=
  match path with
  | [] => best
  | pt :: rest =>
      reduceIdx rest t (S i) (if Qle_bool (Path.t pt) t then i else best)
  end.

Definition lastIdxLE (path : list Path.Point) (t : Q) : nat :=
  reduceIdx path t 0%nat 0%nat.

(** [path[path.length - 1].t] of a path whose first sample is [p0]. *)
Definition totalTimeTravelled (p0 : Path.Point) (rest : list Path.Point) : Q :=
  Path.t (last (p0 :: rest) p0).

(** ** Reducers of the revision with the wall-clock tick (src/main.ts) *)

Module WallClock.

(** The tick reducer; [now] is the value [performance.now()] returns
    when the reducer runs. *)
Definition tick (rows : list Row) (now : Q) (s : State) : State :=
  if gameEnd s then s
  else
    let currentTime := now - timeStart s in
    tickResult rows currentTime s (ghostBirbPos s).

(** The reducer that [makeGhostReducers] builds for the interval value
    [t]; [None] stands for the [EMPTY] branch of an empty path, where no
    reducer is built at all. *)
Definition ghostReducer (path : list Path.Point) (t : Q)
  : option (State -> State) :=
  match path with
  | [] => None
  | p0 :: rest =>
      let inside := Qle_bool t (totalTimeTravelled p0 rest) in
      let y :=
        if inside then Some (Path.y (nth (lastIdxLE path t) path p0))
        else None in
      Some (fun s =>
              if inside then set_ghostBirbPos y s
              else set_ghostBirbPos None s)
  end.

(** The ghost position such a reducer stores, when applied to a state
    that shows no ghost. *)
Definition ghostQuery (path : list Path.Point) (t : Q) : option Q :=
  match ghostReducer path t with
  | Some f => ghostBirbPos (f (initialState 0 Bounce.SEED))
  | None => None
  end.

End WallClock.

(** ** Reducers of the revision with the pause gate *)

Module Gated.

(** The local [ghostBirbPos] of the tick reducer; [ghostPath] is
    [prevPathRef.value]. *)
Definition ghostBirbPosAt (ghostPath : option (list Path.Point))
    (currentTime : Q) (s : State) : option Q :=
  match ghostPath with
  | Some (p0 :: rest) =>
      if Qle_bool currentTime (totalTimeTravelled p0 rest)
      then Some (Path.y (nth (reduceIdx (p0 :: rest) currentTime 0%nat 0%nat)
                             (p0 :: rest) p0))
      else None
  | _ => ghostBirbPos s
  end.

Definition tick (rows : list Row) (ghostPath : option (list Path.Point))
    (s : State) : State :=
  if gameEnd s || paused s then s
  else
    let currentTime := elapsedTime s + Constants.TICK_RATE_MS in
    tickResult rows currentTime s (ghostBirbPosAt ghostPath currentTime s).

(** The reducer built by [pauseState$] for the emitted boolean. *)
Definition pauseState (paused : bool) (s : State) : State :=
  set_paused paused s.

End Gated.

(** ** Runs: [scan] and [takeWhile(..., true)] *)

(** Every transformation that one of the two revisions merges into
    [reducers$]. *)
Inductive Reducer :=
| RFlap
| RWallTick (now : Q)
| RGhost (path : list Path.Point) (t : Q)
| RTick
| RPauseState (paused : bool).

Section Run.

Variable rows : list Row.
(** [prevPathRef.value] during the run. *)
Variable ghostPath : option (list Path.Point).

Definition applyReducer (s : State) (rd : Reducer) : State :=
  match rd with
  | RFlap => flap s
  | RWallTick now => WallClock.tick rows now s
  | RGhost path t =>
      match WallClock.ghostReducer path t with
      | Some f => f s
      | None => s
      end
  | RTick => Gated.tick rows ghostPath s
  | RPauseState b => Gated.pauseState b s
  end.

(** [scan((state, reducerFn) => reducerFn(state), seed)]: the states
    emitted for a finite sequence of reducers. *)
Fixpoint scan (s : State) (rds : list Reducer) : list State :=
  match rds with
  | [] => []
  | rd :: rest => let s' := applyReducer s rd in s' :: scan s' rest
  end.

(** [takeWhile(s => !(s.gameOver || s.score === 20), true)]: the first
    state that fails the test is still emitted, then the stream ends. *)
Fixpoint takeWhileLive (l : list State) : list State :=
  match l with
  | [] => []
  | s :: rest => if negb (gameEnd s) then s :: takeWhileLive rest else [s]
  end.

Definition runState (s0 : State) (rds : list Reducer) : list State :=
  takeWhileLive (scan s0 rds).

End Run.

(** ** The pause gate

    Within one run [pause$] is subscribed twice, by [pauseState$] and by
    [gatedGame$]; each subscription owns its [scan] accumulator, both
    start with [false] and both see every P key press. *)

Inductive Event :=
| KeySpace
| KeyP
| Interval.

Record Gate := mkGate {
  pauseStateAcc : bool;
  gatedGameAcc : bool
}.

Definition gate0 : Gate := {| pauseStateAcc := false; gatedGameAcc := false |}.

(** The reducers that reach [reducers$] for one event: a P press makes
    [pauseState$] emit and lets [gatedGame$] switch between
    [merge(flap$, tick$)] and [EMPTY]; space presses and interval ticks
    reach the merge only while the inner stream is subscribed. *)
Definition emit (g : Gate) (e : Event) : Gate * list Reducer :=
  match e with
  | KeyP =>
      let p := negb (pauseStateAcc g) in
      ({| pauseStateAcc := p; gatedGameAcc := negb (gatedGameAcc g) |},
       [RPauseState p])
  | KeySpace => (g, if gatedGameAcc g then [] else [RFlap])
  | Interval => (g, if gatedGameAcc g then [] else [RTick])
  end.

Fixpoint emitAll (g : Gate) (es : list Event) : list Reducer :=
  match es with
  | [] => []
  | e :: rest => let '(g', rds) := emit g e in rds ++ emitAll g' rest
  end.

(** The reducers of a run: [startWith(false)] of [pauseState$] first. *)
Definition reducersOf (es : list Event) : list Reducer :=
  RPauseState false :: emitAll gate0 es.

(** The accumulators after a sequence of events, from [g] and from the
    start of a run. *)
Definition gateFrom (g : Gate) (es : list Event) : Gate :=
  fold_left (fun g e => fst (emit g e)) es g.

Definition gateAfter (es : list Event) : Gate := gateFrom gate0 es.

(** The state a run holds after a sequence of events (the [scan]
    accumulator, before [takeWhile]). *)
Definition stateAfter (rows : list Row) (ghostPath : option (list Path.Point))
    (s0 : State) (es : list Event) : State :=
  fold_left (applyReducer rows ghostPath) (reducersOf es) s0.

(** ** Vocabulary of the properties *)

(** Two states that agree on every field but [ghostBirbPos]. *)
Definition sameButGhost (s1 s2 : State) : Prop :=
  set_ghostBirbPos None s1 = set_ghostBirbPos None s2.

(** Two states that agree on every field but [ghostBirbPos] and
    [paused]. *)
Definition sameButGhostPaused (s1 s2 : State) : Prop :=
  set_paused false (set_ghostBirbPos None s1)
  = set_paused false (set_ghostBirbPos None s2).

(** The reducers built by one of the two [tick$] streams. *)
Definition isTick (rd : Reducer) : bool :=
  match rd with
  | RWallTick _ | RTick => true
  | _ => false
  end.

(** [performance.now()] never runs backwards: along a run, the elapsed
    time a wall-clock tick computes is never before the one recorded in
    the state it is applied to. *)
Fixpoint clockMonotone (rows : list Row) (ghostPath : option (list Path.Point))
    (s : State) (rds : list Reducer) : Prop :=
  match rds with
  | [] => True
  | rd :: rest =>
      match rd with
      | RWallTick now => elapsedTime s <= now - timeStart s
      | _ => True
      end
      /\ clockMonotone rows ghostPath (applyReducer rows ghostPath s rd) rest
  end.

(** The path of the ghost replay example. *)
Definition examplePath : list Path.Point :=
  [ Path.mkPoint 0 200; Path.mkPoint 16 195; Path.mkPoint 32 190 ].

(** A one-pipe schedule: gap centre 0.75, gap height 0.25, spawned at
    run start; its gap bounds are 250 and 320. *)
Definition onePipe : list Row := [ (3 # 4, 1 # 4, 0) ].

(** [n] interval ticks. *)
Definition ticks (n : nat) : list Event := repeat Interval n.

(** A space press followed by [n] interval ticks. *)
Definition flapThen (n : nat) : list Event := KeySpace :: ticks n.

(** [n] wall-clock ticks of a run started at time 0 whose interval fires
    exactly on schedule: the samples are 16, 32, ... *)
Definition wallTicks (n : nat) : list Reducer :=
  map (fun i => RWallTick (inject_Z (Z.of_nat (S i)) * Constants.TICK_RATE_MS))
      (seq 0 n).

(** The initial state of a run started at time 0 with the seed 1234. *)
Definition state0 : State := initialState 0 Bounce.SEED.

(** The number of pipes of a queue spawned by [now] whose [passed] flag
    is set: the two filters of [scoreUpdate]. *)
Definition passedCount (now : Q) (q : list Pipe) : nat :=
  length (filter (fun p => Bool.eqb (passed p) true)
                 (filter (fun p => Qle_bool (time p) now) q)).

(** The score of a state is the count over its own queue at its own
    elapsed time. *)
Definition scoreInv (rows : list Row) (s : State) : Prop :=
  score s = passedCount (elapsedTime s) (pipeQueue rows s).

(** A short run of the wall-clock revision whose last interval fires
    late, at 2400 ms, when the pipe of [onePipe] is already behind the
    bird. *)
Definition lateRun : list Reducer :=
  [ RWallTick 16; RFlap; RWallTick 32; RWallTick 2400 ].

(** A run of the gated revision that keeps the bird in the air with five
    space presses, 23 ticks apart, and goes on for one more tick: 116
    ticks in all, the last of which is the first one on which the pipe of
    [onePipe] reaches the bird's horizontal span. *)
Definition approach : list Event :=
  flapThen 23 ++ flapThen 23 ++ flapThen 23 ++ flapThen 23 ++ flapThen 23
  ++ ticks 1.

(** A state in which the bird is inside the gap of the pipe of [onePipe]
    while the pipe overlaps its horizontal span, moving up fast enough to
    leave the gap through its upper bound on the next tick. *)
Definition insideGap : State :=
  {| birbPosition := 251;
     birbVelocity := -7;
     birbLives := 3;
     timeStart := 0;
     elapsedTime := 1984;
     score := 0;
     gameOver := false;
     pipeRead := Some (map (updatePipe 1984) (pipeProperties onePipe));
     pipeRendering := Some (map (updatePipe 1984) (pipeProperties onePipe));
     rngSeed := Bounce.SEED;
     invinciblePipeTime := None;
     ghostBirbPos := None;
     paused := false |}.

(** [P] holds of the value of an optional field that is defined. *)
Definition definedAnd {A : Type} (P : A -> Prop) (o : option A) : Prop :=
  match o with
  | Some x => P x
  | None => False
  end.

(** A state in which the bird, above the gap of the pipe of [onePipe],
    overlaps a pipe it has already hit: the marker holds the pipe's spawn
    time. *)
Definition piercing : State :=
  {| birbPosition := 100;
     birbVelocity := 0;
     birbLives := 2;
     timeStart := 0;
     elapsedTime := 1984;
     score := 0;
     gameOver := false;
     pipeRead := Some (map (updatePipe 1984) (pipeProperties onePipe));
     pipeRendering := Some (map (updatePipe 1984) (pipeProperties onePipe));
     rngSeed := Bounce.SEED;
     invinciblePipeTime := Some 0;
     ghostBirbPos := None;
     paused := false |}.

(** ** The geometry drawn by [render] *)

Module Render.

(** The [x], [y], [width] and [height] attributes of an element. *)
Record Rect := mkRect { x : Q; y : Q; width : Q; height : Q }.

(** The two [rect] elements that [createWholePipe] appends for a pipe:
    the upper one and the lower one. *)
Definition createWholePipe (p : Pipe) : Rect * Rect :=
  let pipeConvertedGap := gapY p * Viewport.CANVAS_HEIGHT in
  let pipeConvertedHeight := gapHeight p * Viewport.CANVAS_HEIGHT in
  let topH := pipeConvertedGap - pipeConvertedHeight / 2 in
  let bottomY := pipeConvertedGap + pipeConvertedHeight / 2 in
  let bottomH := Viewport.CANVAS_HEIGHT - bottomY in
  ({| x := xpos p; y := 0; width := Constants.PIPE_WIDTH; height := topH |},
   {| x := xpos p; y := bottomY; width := Constants.PIPE_WIDTH;
      height := bottomH |}).

(** The [image] element drawn for a bird at vertical position [pos]
    ([s.birbPosition] for the bird, [s.ghostBirbPos] for the ghost). *)
Definition birbImg (pos : Q) : Rect :=
  {| x := Viewport.CANVAS_WIDTH * (3 # 10) - Birb.WIDTH / 2;
     y := pos;
     width := Birb.WIDTH;
     height := Birb.HEIGHT |}.

End Render.

(** ** The recorder *)

(** The sample that [tap] pushes for an emitted state. *)
Definition sample (s : State) : Path.Point :=
  {| Path.t := elapsedTime s; Path.y := birbPosition s |}.

(** [currentPath] once the states [emitted] have gone through [tap]. *)
Definition currentPath (emitted : list State) : list Path.Point :=
  map sample emitted.

(** The callback of [finalize]: the new [prevPathRef.value]. *)
Definition finalize (prev : option (list Path.Point))
    (path : list Path.Point) : option (list Path.Point) :=
  match path with
  | [] => prev
  | _ :: _ => Some path
  end.

(** One run of the gated revision: the states that reach [tap] for the
    events that arrive before the next restart. *)
Definition gatedRun (rows : list Row) (prev : option (list Path.Point))
    (s0 : State) (es : list Event) : list State :=
  runState rows prev s0 (reducersOf es).

(** [prevPathRef.value] after a sequence of runs of the gated revision,
    each given by the events that arrive before it is restarted. *)
Fixpoint gatedSession (rows : list Row) (s0 : State)
    (prev : option (list Path.Point)) (runs : list (list Event))
    : option (list Path.Point) :=
  match runs with
  | [] => prev
  | es :: rest =>
      gatedSession rows s0
        (finalize prev (currentPath (gatedRun rows prev s0 es))) rest
  end.

(** ** More vocabulary *)

(** Two states that agree on every field but [birbVelocity],
    [ghostBirbPos] and [paused]. *)
Definition sameGame (s1 s2 : State) : Prop :=
  set_birbVelocity 0 (set_paused false (set_ghostBirbPos None s1))
  = set_birbVelocity 0 (set_paused false (set_ghostBirbPos None s2)).

(** The reducers of the gated revision. *)
Definition isGated (rd : Reducer) : bool :=
  match rd with
  | RFlap | RTick | RPauseState _ => true
  | _ => false
  end.

(** The fields of the pipes of a queue that come from the CSV. *)
Definition schedule (q : list Pipe) : list (Q * Q * Q * Q * Q) :=
  map (fun p => (gapY p, gapHeight p, time p, gapTop p, gapBottom p)) q.

(** Two closed rectangles have a point in common. *)
Definition touches (a b : Render.Rect) : Prop :=
  Render.x a <= Render.x b + Render.width b
  /\ Render.x b <= Render.x a + Render.width a
  /\ Render.y a <= Render.y b + Render.height b
  /\ Render.y b <= Render.y a + Render.height a.

(** The gap bounds of a pipe are the ones [pipeProperties] computes from
    its fractions. *)
Definition gapFromFractions (p : Pipe) : Prop :=
  gapTop p == gapY p * Viewport.CANVAS_HEIGHT
              - gapHeight p * Viewport.CANVAS_HEIGHT / 2
  /\ gapBottom p == gapY p * Viewport.CANVAS_HEIGHT
                    + gapHeight p * Viewport.CANVAS_HEIGHT / 2 - Birb.HEIGHT.

(** The gap of a pipe can be reached by a bird inside the canvas. *)
Definition gapInCanvas (p : Pipe) : Prop :=
  gapTop p <= floor /\ 0 <= gapBottom p.

(** One event on the pair of the gate and the [scan] accumulator. *)
Definition stepEvent (rows : list Row) (gp : option (list Path.Point))
    (c : Gate * State) (e : Event) : Gate * State :=
  (fst (emit (fst c) e),
   fold_left (applyReducer rows gp) (snd (emit (fst c) e)) (snd c)).

(** Every pipe of the queue that is flagged [passed] is entirely behind
    the bird at the elapsed time of the state. *)
Definition passedBehind (rows : list Row) (s : State) : Prop :=
  Forall (fun p =>
            passed p = true ->
            pipeXposAtAge (elapsedTime s - time p) + Constants.PIPE_WIDTH
            < BIRB_X)
         (pipeQueue rows s).

(** [x] comes no later than [z] in a run, and shows the same position if
    it comes at the same elapsed time. *)
Definition plateau (x z : State) : Prop :=
  elapsedTime x <= elapsedTime z
  /\ (elapsedTime z <= elapsedTime x -> birbPosition z = birbPosition x).

(** ** The ghost reducer stream of src/main.ts *)

(** [takeWhile(t => t <= totalTimeTravelled, true)] on interval values:
    the first value past the recording is still let through. *)
Fixpoint takeWhileInside (total : Q) (ts : list Q) : list Q :=
  match ts with
  | [] => []
  | t :: rest =>
      if Qle_bool t total then t :: takeWhileInside total rest else [t]
  end.

(** The values [i * TICK_RATE_MS] of the first [n] firings of
    [interval(TICK_RATE_MS)]. *)
Definition intervalTimes (n : nat) : list Q :=
  map (fun i => inject_Z (Z.of_nat i) * Constants.TICK_RATE_MS) (seq 0 n).

(** The reducers [makeGhostReducers] has emitted once its interval has
    fired [n] times. *)
Definition makeGhostReducers (path : list Path.Point) (n : nat)
    : list Reducer :=
  match path with
  | [] => []
  | p0 :: rest =>
      map (RGhost path)
          (takeWhileInside (totalTimeTravelled p0 rest) (intervalTimes n))
  end.

(** A state one tick before the pipe of [onePipe] reaches the bird,
    with the bird above the gap. *)
Definition beforeEntry : State :=
  {| birbPosition := 100;
     birbVelocity := 0;
     birbLives := 3;
     timeStart := 0;
     elapsedTime := 1840;
     score := 0;
     gameOver := false;
     pipeRead := Some (map (updatePipe 1840) (pipeProperties onePipe));
     pipeRendering := Some (map (updatePipe 1840) (pipeProperties onePipe));
     rngSeed := Bounce.SEED;
     invinciblePipeTime := None;
     ghostBirbPos := None;
     paused := false |}.

(** The age, in ms, at which the right edge of a pipe gets behind the
    left edge of the bird: 3000 * (600 - 109) / 650. *)
Definition PASS_AGE : Q := 29460 # 13.

(** The number of scheduled pipes that are older than [PASS_AGE] at
    elapsed time [now]. *)
Definition pipesBehind (rows : list Row) (now : Q) : nat :=
  length (filter (fun p => Qgt_bool (now - time p) PASS_AGE)
                 (pipeProperties rows)).

(** A schedule whose first row spawns after its second: gap 100 to 270
    spawned at 300 ms, then gap 250 to 320 spawned at run start. *)
Definition twoPipes : list Row :=
  [ (1 # 2, 1 # 2, 3 # 10); (3 # 4, 1 # 4, 0) ].

(** The run of [approach], in which the bird hits the side of the pipe
    spawned at run start, followed by a space press and 17 ticks that
    keep the bird near height 200 while that pipe goes by. *)
Definition hitThenGlide : list Event := approach ++ KeySpace :: ticks 17.

(** The reducers built from a space press. *)
Definition isFlap (rd : Reducer) : bool :=
  match rd with
  | RFlap => true
  | _ => false
  end.

(** A space press before each of 31 ticks: the bird climbs from 200 to
    1.6, one tick short of the top of the canvas. *)
Definition climb : list Event :=
  flat_map (fun _ => flapThen 1) (seq 0 31).

(** * Properties *)

(** ** Comparison helpers *)

Lemma Qle_bool_false (x y : Q) : Qle_bool x y = false <-> y < x.
Proof.
  rewrite <- not_true_iff_false, Qle_bool_iff. split; intro H.
  - apply Qnot_le_lt; exact H.
  - apply Qlt_not_le; exact H.
Qed.

Lemma Qeq_bool_false (x y : Q) : Qeq_bool x y = false <-> ~ x == y.
Proof.
  rewrite <- not_true_iff_false, Qeq_bool_iff. tauto.
Qed.

Ltac qbool :=
  repeat match goal with
         | H : Qle_bool _ _ = true |- _ => apply Qle_bool_iff in H
         | H : Qle_bool _ _ = false |- _ => apply Qle_bool_false in H
         | H : Qeq_bool _ _ = true |- _ => apply Qeq_bool_iff in H
         | H : Qeq_bool _ _ = false |- _ => apply Qeq_bool_false in H
         end.

(** ** The generator *)

Lemma Qtrunc_int_div (n : Z) (p : positive) :
  Qtrunc (inject_Z n / inject_Z (Zpos p)) = Z.quot n (Zpos p).
Proof.
  unfold Qtrunc, Qdiv, Qinv, Qmult, inject_Z. cbn [Qnum Qden].
  rewrite Z.mul_1_r. reflexivity.
Qed.

(** On integers [%] is the truncated remainder [Z.rem]. *)
Lemma js_rem_int (n : Z) (p : positive) :
  js_rem (inject_Z n) (inject_Z (Zpos p)) == inject_Z (Z.rem n (Zpos p)).
Proof.
  unfold js_rem. rewrite Qtrunc_int_div.
  rewrite (Z.rem_eq n (Zpos p)) by discriminate.
  unfold Z.sub. rewrite inject_Z_plus, inject_Z_opp, inject_Z_mult. ring.
Qed.

(** *** Rounding to binary64 *)

Lemma Qred_inject_Z (z : Z) : Qred (inject_Z z) = inject_Z z.
Proof.
  unfold Qred, inject_Z.
  pose proof (Z.ggcd_gcd z 1) as Hg.
  pose proof (Z.ggcd_correct_divisors z 1) as Hd.
  destruct (Z.ggcd z 1) as [g [aa bb]]. cbn [fst snd] in *.
  rewrite Z.gcd_1_r in Hg. subst g. destruct Hd as [Ha Hb].
  rewrite Z.mul_1_l in Ha, Hb. subst aa bb. reflexivity.
Qed.

Lemma binary64_compat (x y : Q) : x == y -> binary64 x = binary64 y.
Proof. intros E. unfold binary64. rewrite (Qred_complete _ _ E). reflexivity. Qed.

Lemma round_half_even_Z (q : Q) (w : Z) :
  q == inject_Z w -> round_half_even q = w.
Proof.
  intros E. unfold round_half_even.
  assert (Ef : Qfloor q = w) by (rewrite E; apply Qfloor_Z).
  rewrite Ef.
  assert (Hlt : q - inject_Z w < 1 # 2) by (rewrite E; lra).
  apply Qlt_alt in Hlt.
  replace (Qcompare (q - inject_Z w) (1 # 2)) with Lt
    by (symmetry; exact Hlt).
  reflexivity.
Qed.

Lemma round_half_even_nonneg (x : Q) : 0 <= x -> (0 <= round_half_even x)%Z.
Proof.
  intros H. unfold round_half_even.
  assert (Hf : (0 <= Qfloor x)%Z).
  { change 0%Z with (Qfloor 0). apply Qfloor_resp_le. exact H. }
  destruct (Qcompare (x - inject_Z (Qfloor x)) (1 # 2)); [|lia|lia].
  destruct (Z.even (Qfloor x)); lia.
Qed.

Lemma pow2_pos (e : Z) : 0 < 2 ^ e.
Proof. apply Qpower_0_lt. reflexivity. Qed.

Lemma binary64_nonneg (x : Q) : 0 <= x -> 0 <= binary64 x.
Proof.
  intros H. unfold binary64.
  assert (Hr : 0 <= Qred x) by (rewrite Qred_correct; exact H).
  rewrite (proj2 (Qle_bool_iff 0 (Qred x)) Hr).
  apply Qmult_le_0_compat; [|apply Qlt_le_weak, pow2_pos].
  change 0 with (inject_Z 0). rewrite <- Zle_Qle.
  apply round_half_even_nonneg.
  apply Qle_shift_div_l; [apply pow2_pos|].
  rewrite Qmult_0_l. apply Qabs_nonneg.
Qed.

(** The value a non-negative integer rounds to, for any exponent. *)
Lemma rounded_integer (z e : Z) :
  (0 <= z)%Z ->
  exists w,
    (0 <= w)%Z
    /\ inject_Z (round_half_even (inject_Z z / 2 ^ e)) * 2 ^ e == inject_Z w
    /\ ((e <= 0)%Z -> w = z).
Proof.
  intros Hz. destruct (Z.le_gt_cases e 0) as [He|He].
  - exists z. split; [exact Hz|]. split; [|reflexivity].
    assert (E : inject_Z z / 2 ^ e == inject_Z (z * 2 ^ (- e))).
    { rewrite inject_Z_mult, Zpower_Qpower by lia.
      rewrite Qpower_opp. unfold Qdiv. reflexivity. }
    rewrite (round_half_even_Z _ _ E), inject_Z_mult.
    rewrite Zpower_Qpower by lia. rewrite Qpower_opp.
    change (inject_Z 2) with 2. pose proof (pow2_pos e) as Hp.
    set (P := 2 ^ e) in *. field. intros E0. rewrite E0 in Hp.
    discriminate Hp.
  - exists (round_half_even (inject_Z z / 2 ^ e) * 2 ^ e)%Z.
    split; [|split; [|lia]].
    + apply Z.mul_nonneg_nonneg; [|apply Z.pow_nonneg; lia].
      apply round_half_even_nonneg.
      apply Qle_shift_div_l; [apply pow2_pos|].
      rewrite Qmult_0_l. change 0 with (inject_Z 0). rewrite <- Zle_Qle.
      exact Hz.
    + rewrite inject_Z_mult, Zpower_Qpower by lia. reflexivity.
Qed.

Lemma binary64_on_integer (z : Z) :
  (0 <= z)%Z ->
  binary64 (inject_Z z)
  = inject_Z (round_half_even (inject_Z z / 2 ^ ulp_exp (inject_Z z)))
    * 2 ^ ulp_exp (inject_Z z).
Proof.
  intros Hz. unfold binary64. rewrite Qred_inject_Z.
  assert (Ea : Qabs (inject_Z z) = inject_Z z).
  { unfold Qabs, inject_Z. rewrite Z.abs_eq by exact Hz. reflexivity. }
  rewrite Ea.
  assert (H0 : Qle_bool 0 (inject_Z z) = true).
  { apply Qle_bool_iff. change 0 with (inject_Z 0). rewrite <- Zle_Qle.
    exact Hz. }
  rewrite H0. reflexivity.
Qed.

(** A non-negative integer rounds to a non-negative integer. *)
Lemma binary64_integer (z : Z) :
  (0 <= z)%Z -> exists w, (0 <= w)%Z /\ binary64 (inject_Z z) == inject_Z w.
Proof.
  intros Hz. rewrite (binary64_on_integer z Hz).
  destruct (rounded_integer z (ulp_exp (inject_Z z)) Hz) as (w & Hw & E & _).
  exists w. split; assumption.
Qed.

(** Integers below 2^53 are binary64 numbers. *)
Lemma binary64_exact (z : Z) :
  (0 <= z < 2 ^ 53)%Z -> binary64 (inject_Z z) == inject_Z z.
Proof.
  intros [Hz Hlt]. rewrite (binary64_on_integer z Hz).
  destruct (rounded_integer z (ulp_exp (inject_Z z)) Hz) as (w & _ & E & Hw).
  rewrite E, Hw; [reflexivity|].
  unfold ulp_exp. cbn [inject_Z Qnum Qden]. change (Z.log2 1) with 0%Z.
  rewrite Z.sub_0_r.
  assert (Hk : (Z.log2 z <= 52)%Z).
  { destruct (Z.eq_dec z 0) as [->|Hnz]; [cbn; lia|].
    assert (Z.log2 z < 53)%Z
      by (apply (proj1 (Z.log2_lt_pow2 z 53 ltac:(lia))); exact Hlt).
    lia. }
  destruct (Qle_bool (2 ^ Z.log2 z) (inject_Z z)); lia.
Qed.

(** *** The hash *)

(** [hash] does not depend on the fraction that represents the seed. *)
Lemma Qtrunc_compat (x y : Q) : x == y -> Qtrunc x = Qtrunc y.
Proof.
  unfold Qeq, Qtrunc. intros E.
  rewrite <- (Z.quot_mul_cancel_r (Qnum x) (Zpos (Qden x)) (Zpos (Qden y)))
    by discriminate.
  rewrite <- (Z.quot_mul_cancel_r (Qnum y) (Zpos (Qden y)) (Zpos (Qden x)))
    by discriminate.
  rewrite E. f_equal. apply Z.mul_comm.
Qed.

Lemma js_rem_compat (x y m : Q) : x == y -> js_rem x m == js_rem y m.
Proof.
  intros E. unfold js_rem.
  assert (Ed : x / m == y / m) by (rewrite E; reflexivity).
  rewrite (Qtrunc_compat _ _ Ed), E. reflexivity.
Qed.

Lemma hash_compat (s1 s2 : Q) : s1 == s2 -> RNG.hash s1 == RNG.hash s2.
Proof.
  intros E. unfold RNG.hash.
  assert (E' : binary64 (RNG.a * s1) = binary64 (RNG.a * s2))
    by (apply binary64_compat; rewrite E; reflexivity).
  rewrite E'. reflexivity.
Qed.

(** The hash of a non-negative integer is an integer of [0, 2^31 - 1]. *)
Lemma hash_integer (z : Z) :
  (0 <= z)%Z ->
  exists h, (0 <= h <= 2147483647)%Z /\ RNG.hash (inject_Z z) == inject_Z h.
Proof.
  intros Hz. unfold RNG.hash.
  assert (E1 : RNG.a * inject_Z z == inject_Z (1103515245 * z))
    by (rewrite inject_Z_mult; reflexivity).
  rewrite (binary64_compat _ _ E1).
  destruct (binary64_integer (1103515245 * z) ltac:(lia)) as (w1 & Hw1 & Ew1).
  assert (E2 : binary64 (inject_Z (1103515245 * z)) + RNG.c
               == inject_Z (w1 + 12345))
    by (rewrite Ew1, inject_Z_plus; reflexivity).
  rewrite (binary64_compat _ _ E2).
  destruct (binary64_integer (w1 + 12345) ltac:(lia)) as (w2 & Hw2 & Ew2).
  exists (Z.rem w2 2147483648). split.
  - rewrite Z.rem_mod_nonneg by lia.
    pose proof (Z.mod_pos_bound w2 2147483648 ltac:(lia)). lia.
  - rewrite (js_rem_compat _ _ _ Ew2). apply js_rem_int.
Qed.

(** Below 2^53 nothing is rounded and the hash is the
    linear-congruential step on the integers. *)
Lemma hash_int (z : Z) :
  (0 <= z)%Z -> (1103515245 * z + 12345 < 2 ^ 53)%Z ->
  RNG.hash (inject_Z z)
  == inject_Z (Z.rem (1103515245 * z + 12345) 2147483648).
Proof.
  intros Hz Hlt. change (2 ^ 53)%Z with 9007199254740992%Z in Hlt.
  unfold RNG.hash.
  assert (E1 : RNG.a * inject_Z z == inject_Z (1103515245 * z))
    by (rewrite inject_Z_mult; reflexivity).
  rewrite (binary64_compat _ _ E1).
  assert (E2 : binary64 (inject_Z (1103515245 * z)) + RNG.c
               == inject_Z (1103515245 * z + 12345)).
  { rewrite binary64_exact, inject_Z_plus; [reflexivity|].
    change (2 ^ 53)%Z with 9007199254740992%Z. lia. }
  rewrite (binary64_compat _ _ E2).
  assert (E3 : binary64 (inject_Z (1103515245 * z + 12345))
               == inject_Z (1103515245 * z + 12345)).
  { apply binary64_exact. change (2 ^ 53)%Z with 9007199254740992%Z. lia. }
  rewrite (js_rem_compat _ _ _ E3). apply js_rem_int.
Qed.

(** Above 2^53 the product is rounded: the third seed of a run that
    starts from [Bounce.SEED] already differs from the step on the
    integers. *)
Lemma hash_rounds_above_2_53 :
  RNG.hash 1234 == 233191843
  /\ RNG.hash 233191843 == 128476320
  /\ RNG.hash 128476320 == 85706848
  /\ ((1103515245 * 128476320 + 12345) mod 2147483648 = 85706841)%Z.
Proof. repeat split; vm_compute; reflexivity. Qed.

Lemma scale_range (h : Q) :
  0 <= h <= RNG.m - 1 -> -1 <= RNG.scale h <= 1.
Proof.
  unfold RNG.scale, RNG.m. intros [H0 H1].
  assert (E : 2 * h / (2147483648 - 1) == 2 * h * (1 # 2147483647)).
  { unfold Qdiv. reflexivity. }
  rewrite E. split; lra.
Qed.

(** C8, as stated, fails at the seed -1: [%] keeps the sign of the
    dividend, the hash is negative and its scaled value is below -1. *)
Lemma C8_negative_seed_out_of_range :
  RNG.hash (inject_Z (-1)) == inject_Z (-1103502900)
  /\ RNG.scale (RNG.hash (inject_Z (-1))) < -1.
Proof.
  split.
  - vm_compute. reflexivity.
  - vm_compute. reflexivity.
Qed.

(** C8 (amended): for every non-negative integer seed whose step
    [1103515245*seed + 12345] stays finite in binary64 (below 2^1023),
    [hash] is the same number on every call, whatever fraction
    represents the seed; it is an integer of [0, 2^31 - 1], and it is
    [(1103515245*seed + 12345) mod 2^31] as long as the step stays below
    2^53 (above, the code rounds the product and the sum before the
    remainder); [scale] of it lies in [-1, 1]. *)
Theorem C8_prng_range_nonneg_seed (z : Z) (Hz : (0 <= z)%Z)
    (Hfinite : (1103515245 * z + 12345 < 2 ^ 1023)%Z) :
  (exists h,
      (0 <= h <= 2147483647)%Z /\ RNG.hash (inject_Z z) == inject_Z h)
  /\ ((1103515245 * z + 12345 < 2 ^ 53)%Z ->
      RNG.hash (inject_Z z)
      == inject_Z ((1103515245 * z + 12345) mod 2147483648))
  /\ (forall q : Q, q == inject_Z z -> RNG.hash q == RNG.hash (inject_Z z))
  /\ 0 <= RNG.hash (inject_Z z) <= RNG.m - 1
  /\ -1 <= RNG.scale (RNG.hash (inject_Z z)) <= 1.
Proof.
  destruct (hash_integer z Hz) as (h & Hh & Eh).
  assert (B : 0 <= RNG.hash (inject_Z z) <= RNG.m - 1).
  { rewrite Eh. unfold RNG.m. split.
    - change 0 with (inject_Z 0). rewrite <- Zle_Qle. lia.
    - change (2147483648 - 1) with (inject_Z 2147483647).
      rewrite <- Zle_Qle. lia. }
  split; [exists h; split; assumption|].
  split.
  { intros Hexact. rewrite (hash_int z Hz Hexact).
    rewrite Z.rem_mod_nonneg by lia. reflexivity. }
  split; [intros q Hq; apply hash_compat; exact Hq|].
  split; [exact B | apply scale_range; exact B].
Qed.

Lemma C8_prng_range_witness :
  (0 <= 1234)%Z /\ (1103515245 * 1234 + 12345 < 2 ^ 1023)%Z
  /\ RNG.hash (inject_Z 1234) == inject_Z 233191843
  /\ -1 <= RNG.scale (RNG.hash (inject_Z 1234)) <= 1.
Proof.
  assert (H0 : (0 <= 1234)%Z) by lia.
  assert (H1 : (1103515245 * 1234 + 12345 < 2 ^ 1023)%Z)
    by (vm_compute; reflexivity).
  destruct (C8_prng_range_nonneg_seed 1234 H0 H1) as (_ & He & _ & _ & Hs).
  split; [exact H0|]. split; [exact H1|]. split; [|exact Hs].
  apply He. vm_compute. reflexivity.
Defined.

(** ** Pipe position *)

Lemma clamp01_mono (x1 x2 : Q) : x1 <= x2 -> clamp01 x1 <= clamp01 x2.
Proof.
  intros H. unfold clamp01.
  destruct (Qle_bool x1 0) eqn:E1; destruct (Qle_bool x2 0) eqn:E2;
    destruct (Qle_bool 1 x1) eqn:E3; destruct (Qle_bool 1 x2) eqn:E4;
    qbool; lra.
Qed.

Lemma pipeXposAtAge_mono (a1 a2 : Q) :
  a1 <= a2 -> pipeXposAtAge a2 <= pipeXposAtAge a1.
Proof.
  intros H. unfold pipeXposAtAge.
  assert (M : clamp01 (a1 / travel) <= clamp01 (a2 / travel)).
  { apply clamp01_mono. unfold travel, Constants.PIPE_TRAVEL_MS, Qdiv.
    change (/ 3000) with (1 # 3000). lra. }
  unfold distance, Viewport.CANVAS_WIDTH, Constants.PIPE_WIDTH. lra.
Qed.

Lemma pipeXposAtAge_compat (a1 a2 : Q) :
  a1 == a2 -> pipeXposAtAge a1 == pipeXposAtAge a2.
Proof.
  intros E. apply Qle_antisym; apply pipeXposAtAge_mono; rewrite E;
    apply Qle_refl.
Qed.

(** C10: a pipe with spawn time 0 has age [now] at elapsed time [now];
    its [xpos] is [CANVAS_WIDTH] at age 0, is
    [CANVAS_WIDTH - (CANVAS_WIDTH + PIPE_WIDTH)] (that is -50) at age
    [PIPE_TRAVEL_MS], and does not increase with age inside
    [0, PIPE_TRAVEL_MS]. *)
Theorem C10_pipe_xpos (p : Pipe) (Hspawn : time p == 0) :
  (forall now, age (updatePipe now p) == now)
  /\ xpos (updatePipe 0 p) == Viewport.CANVAS_WIDTH
  /\ xpos (updatePipe Constants.PIPE_TRAVEL_MS p)
     == Viewport.CANVAS_WIDTH - (Viewport.CANVAS_WIDTH + Constants.PIPE_WIDTH)
  /\ xpos (updatePipe Constants.PIPE_TRAVEL_MS p) == -50
  /\ (forall now1 now2,
        0 <= now1 -> now1 <= now2 -> now2 <= Constants.PIPE_TRAVEL_MS ->
        xpos (updatePipe now2 p) <= xpos (updatePipe now1 p)).
Proof.
  assert (A : forall now, age (updatePipe now p) == now).
  { intros now. cbn [updatePipe age]. rewrite Hspawn. ring. }
  assert (X : forall now, xpos (updatePipe now p) == pipeXposAtAge now).
  { intros now. cbn [updatePipe xpos]. apply pipeXposAtAge_compat.
    rewrite Hspawn. ring. }
  split; [exact A|].
  split; [rewrite X; vm_compute; reflexivity|].
  split; [rewrite X; vm_compute; reflexivity|].
  split; [rewrite X; vm_compute; reflexivity|].
  intros now1 now2 _ H12 _. rewrite !X. apply pipeXposAtAge_mono. exact H12.
Qed.

Lemma C10_pipe_xpos_witness :
  xpos (updatePipe 0 (pipeOfRow (1 # 2, 1 # 4, 0))) == 600
  /\ xpos (updatePipe 3000 (pipeOfRow (1 # 2, 1 # 4, 0))) == -50
  /\ xpos (updatePipe 1600 (pipeOfRow (1 # 2, 1 # 4, 0)))
     <= xpos (updatePipe 16 (pipeOfRow (1 # 2, 1 # 4, 0))).
Proof.
  pose proof (C10_pipe_xpos (pipeOfRow (1 # 2, 1 # 4, 0))
                ltac:(vm_compute; reflexivity)) as (_ & H0 & _ & H1 & Hm).
  split; [exact H0|]. split; [exact H1|].
  apply Hm; vm_compute; discriminate.
Defined.

(** ** Ghost replay *)

(** C9: on the recorded path [(0,200),(16,195),(32,190)] the index
    search at [t = 20] stops at the sample of time 16, so both ghost
    players yield 195 there; at [t = 50], past the last recorded time 32,
    both yield no ghost position. *)
Theorem C9_ghost_step_interpolation :
  lastIdxLE examplePath 20 = 1%nat
  /\ WallClock.ghostQuery examplePath 20 = Some 195
  /\ WallClock.ghostQuery examplePath 50 = None
  /\ (forall s, Gated.ghostBirbPosAt (Some examplePath) 20 s = Some 195)
  /\ (forall s, Gated.ghostBirbPosAt (Some examplePath) 50 s = None).
Proof.
  repeat split; reflexivity.
Qed.

(** ** Reducers on terminal and paused states *)

Lemma WallClock_tick_end (rows : list Row) (now : Q) (s : State) :
  gameEnd s = true -> WallClock.tick rows now s = s.
Proof. intros H. unfold WallClock.tick. rewrite H. reflexivity. Qed.

Lemma WallClock_tick_live (rows : list Row) (now : Q) (s : State) :
  gameEnd s = false ->
  WallClock.tick rows now s
  = tickResult rows (now - timeStart s) s (ghostBirbPos s).
Proof. intros H. unfold WallClock.tick. rewrite H. reflexivity. Qed.

Lemma Gated_tick_end (rows : list Row) (g : option (list Path.Point))
    (s : State) :
  gameEnd s = true -> Gated.tick rows g s = s.
Proof. intros H. unfold Gated.tick. rewrite H. reflexivity. Qed.

Lemma Gated_tick_paused (rows : list Row) (g : option (list Path.Point))
    (s : State) :
  paused s = true -> Gated.tick rows g s = s.
Proof.
  intros H. unfold Gated.tick. rewrite H, orb_true_r. reflexivity.
Qed.

Lemma Gated_tick_live (rows : list Row) (g : option (list Path.Point))
    (s : State) :
  gameEnd s = false -> paused s = false ->
  Gated.tick rows g s
  = tickResult rows (elapsedTime s + Constants.TICK_RATE_MS) s
      (Gated.ghostBirbPosAt g (elapsedTime s + Constants.TICK_RATE_MS) s).
Proof. intros H1 H2. unfold Gated.tick. rewrite H1, H2. reflexivity. Qed.

Lemma flap_end (s : State) : gameEnd s = true -> flap s = s.
Proof. intros H. unfold flap. rewrite H. reflexivity. Qed.

Lemma flap_live (s : State) :
  gameEnd s = false -> flap s = set_birbVelocity (-7) s.
Proof. intros H. unfold flap. rewrite H. reflexivity. Qed.

(** The ghost reducer touches [ghostBirbPos] only. *)
Lemma ghostReducer_sameButGhost (path : list Path.Point) (t : Q)
    (f : State -> State) (s : State) :
  WallClock.ghostReducer path t = Some f -> sameButGhost (f s) s.
Proof.
  destruct path as [|p0 rest]; cbn [WallClock.ghostReducer]; [discriminate|].
  intros [= <-].
  destruct (Qle_bool t (totalTimeTravelled p0 rest)); reflexivity.
Qed.

Lemma sameButGhost_weaken (s1 s2 : State) :
  sameButGhost s1 s2 -> sameButGhostPaused s1 s2.
Proof.
  unfold sameButGhost, sameButGhostPaused. intros H. rewrite H. reflexivity.
Qed.

Lemma sameButGhostPaused_fields (s1 s2 : State) :
  sameButGhostPaused s1 s2 ->
  score s1 = score s2 /\ birbLives s1 = birbLives s2
  /\ gameOver s1 = gameOver s2 /\ gameEnd s1 = gameEnd s2.
Proof.
  unfold sameButGhostPaused, gameEnd.
  destruct s1, s2; cbn. intros [= -> -> -> -> -> -> -> -> -> -> ->].
  repeat split.
Qed.

(** Reducers other than the ticks and the flap overwrite [ghostBirbPos]
    or [paused] and nothing else. *)
Lemma applyReducer_other (rows : list Row) (g : option (list Path.Point))
    (s : State) (rd : Reducer) :
  isTick rd = false -> rd <> RFlap ->
  sameButGhostPaused (applyReducer rows g s rd) s.
Proof.
  destruct rd as [|now|path t| |b]; cbn [isTick applyReducer];
    try discriminate; try congruence; intros _ _.
  - destruct (WallClock.ghostReducer path t) as [f|] eqn:E; [|reflexivity].
    apply sameButGhost_weaken, (ghostReducer_sameButGhost _ _ _ _ E).
  - reflexivity.
Qed.

(** Ticks and flaps return a terminal state as it is. *)
Lemma applyReducer_end (rows : list Row) (g : option (list Path.Point))
    (s : State) (rd : Reducer) :
  gameEnd s = true -> sameButGhostPaused (applyReducer rows g s rd) s.
Proof.
  intros H. destruct rd as [|now|path t| |b] eqn:E.
  - cbn. rewrite flap_end by exact H. reflexivity.
  - cbn. rewrite WallClock_tick_end by exact H. reflexivity.
  - apply applyReducer_other; [reflexivity | discriminate].
  - cbn. rewrite Gated_tick_end by exact H. reflexivity.
  - apply applyReducer_other; [reflexivity | discriminate].
Qed.

(** ** Runs end at their first terminal state *)

Lemma takeWhileLive_removelast (l : list State) :
  Forall (fun x => gameEnd x = false) (removelast (takeWhileLive l)).
Proof.
  induction l as [|x rest IH]; cbn [takeWhileLive]; [constructor|].
  destruct (gameEnd x) eqn:E; cbn [negb]; [constructor|].
  destruct (takeWhileLive rest) as [|y l'] eqn:Et; [constructor|].
  change (removelast (x :: y :: l')) with (x :: removelast (y :: l')).
  constructor; assumption.
Qed.

(** C1, as stated, fails for the two reducers that carry no terminal
    guard.  With no pipes the bird drops to the floor three times and the
    54th tick ends the game; the ghost reducer of the wall-clock revision
    still overwrites [ghostBirbPos] of that state, and the pause reducer
    of the gated revision still overwrites [paused]. *)
Lemma C1_unguarded_reducers_change_terminal_state :
  let sW := fold_left (applyReducer [] None) (wallTicks 54) state0 in
  let sG := stateAfter [] None state0 (ticks 54) in
  gameOver sW = true /\ gameOver sG = true
  /\ applyReducer [] None sW (RGhost examplePath 0) <> sW
  /\ applyReducer [] None sG (RPauseState true) <> sG.
Proof.
  cbv zeta.
  split; [vm_compute; reflexivity|].
  split; [vm_compute; reflexivity|].
  split.
  - assert (H1 : ghostBirbPos
                   (applyReducer [] None
                      (fold_left (applyReducer [] None) (wallTicks 54) state0)
                      (RGhost examplePath 0)) = Some 200)
      by (vm_compute; reflexivity).
    assert (H2 : ghostBirbPos
                   (fold_left (applyReducer [] None) (wallTicks 54) state0)
                 = None)
      by (vm_compute; reflexivity).
    intros H. rewrite H, H2 in H1. discriminate H1.
  - assert (H1 : paused
                   (applyReducer [] None (stateAfter [] None state0 (ticks 54))
                      (RPauseState true)) = true)
      by reflexivity.
    assert (H2 : paused (stateAfter [] None state0 (ticks 54)) = false)
      by (vm_compute; reflexivity).
    intros H. rewrite H, H2 in H1. discriminate H1.
Qed.

(** C1 (amended): on a state with [gameOver] set or with the winning
    score, the tick reducers of both revisions and the flap reducer
    return the state itself; the ghost reducer and the pause reducer have
    no such guard, they overwrite [ghostBirbPos] or [paused] and leave
    every other field, so the state stays terminal; and a run emits no
    terminal state but its last one, so within a run no reducer is ever
    applied to a terminal state. *)
Theorem C1_terminal_stability (rows : list Row)
    (ghostPath : option (list Path.Point)) (s : State)
    (Hend : gameEnd s = true) :
  (forall now, WallClock.tick rows now s = s)
  /\ Gated.tick rows ghostPath s = s
  /\ flap s = s
  /\ (forall rd,
        sameButGhostPaused (applyReducer rows ghostPath s rd) s
        /\ gameEnd (applyReducer rows ghostPath s rd) = true)
  /\ (forall s0 rds,
        Forall (fun x => gameEnd x = false)
               (removelast (runState rows ghostPath s0 rds))).
Proof.
  split; [intros now; apply WallClock_tick_end; exact Hend|].
  split; [apply Gated_tick_end; exact Hend|].
  split; [apply flap_end; exact Hend|].
  split.
  - intros rd.
    pose proof (applyReducer_end rows ghostPath s rd Hend) as Hsame.
    split; [exact Hsame|].
    apply sameButGhostPaused_fields in Hsame as (_ & _ & _ & ->).
    exact Hend.
  - intros s0 rds. apply takeWhileLive_removelast.
Qed.

Lemma C1_terminal_stability_witness :
  let s := stateAfter [] None state0 (ticks 54) in
  gameEnd s = true /\ Gated.tick [] None s = s /\ flap s = s.
Proof.
  cbv zeta.
  assert (Hend : gameEnd (stateAfter [] None state0 (ticks 54)) = true)
    by (vm_compute; reflexivity).
  pose proof (C1_terminal_stability [] None _ Hend) as (_ & Ht & Hf & _).
  split; [exact Hend|]. split; [exact Ht | exact Hf].
Defined.

(** ** The pause gate *)

Lemma emitAll_app (g : Gate) (es1 es2 : list Event) :
  emitAll g (es1 ++ es2) = emitAll g es1 ++ emitAll (gateFrom g es1) es2.
Proof.
  revert g. induction es1 as [|e es1 IH]; intros g; [reflexivity|].
  cbn [app emitAll gateFrom fold_left].
  destruct (emit g e) as [g' rds] eqn:E. cbn [fst].
  rewrite IH, app_assoc. reflexivity.
Qed.

Lemma stateAfter_snoc (rows : list Row) (gp : option (list Path.Point))
    (s0 : State) (es : list Event) (e : Event) :
  stateAfter rows gp s0 (es ++ [e])
  = fold_left (applyReducer rows gp) (snd (emit (gateAfter es) e))
      (stateAfter rows gp s0 es).
Proof.
  unfold stateAfter, reducersOf.
  rewrite emitAll_app, app_comm_cons, fold_left_app.
  cbn [emitAll]. unfold gateAfter.
  destruct (emit (gateFrom gate0 es) e) as [g' rds]. cbn [snd].
  rewrite app_nil_r. reflexivity.
Qed.

Lemma gateAfter_snoc (es : list Event) (e : Event) :
  gateAfter (es ++ [e]) = fst (emit (gateAfter es) e).
Proof. unfold gateAfter, gateFrom. rewrite fold_left_app. reflexivity. Qed.

Lemma paused_flap (s : State) : paused (flap s) = paused s.
Proof. unfold flap. destruct (gameEnd s); reflexivity. Qed.

Lemma paused_Gated_tick (rows : list Row) (gp : option (list Path.Point))
    (s : State) :
  paused (Gated.tick rows gp s) = paused s.
Proof. unfold Gated.tick. destruct (gameEnd s || paused s); reflexivity. Qed.

(** Both accumulators of [pause$] and the [paused] field agree all along
    a run. *)
Lemma gate_in_sync (rows : list Row) (gp : option (list Path.Point))
    (s0 : State) (es : list Event) :
  pauseStateAcc (gateAfter es) = gatedGameAcc (gateAfter es)
  /\ paused (stateAfter rows gp s0 es) = gatedGameAcc (gateAfter es).
Proof.
  induction es as [|e es [IH1 IH2]] using rev_ind.
  - split; reflexivity.
  - rewrite stateAfter_snoc, gateAfter_snoc.
    destruct e; cbn [emit fst snd fold_left pauseStateAcc gatedGameAcc].
    + split; [exact IH1|].
      destruct (gatedGameAcc (gateAfter es)); cbn [fold_left applyReducer];
        [exact IH2 | rewrite paused_flap; exact IH2].
    + rewrite IH1. split; reflexivity.
    + split; [exact IH1|].
      destruct (gatedGameAcc (gateAfter es)); cbn [fold_left applyReducer];
        [exact IH2 | rewrite paused_Gated_tick; exact IH2].
Qed.

(** C5, as stated, fails for the flap: after one P press the state is
    paused and live, and a space press leaves it as it is, the velocity
    stays 0 instead of becoming -7. *)
Lemma C5_flap_dropped_while_paused :
  let s := stateAfter onePipe None state0 [KeyP] in
  paused s = true /\ gameEnd s = false
  /\ stateAfter onePipe None state0 [KeyP; KeySpace] = s
  /\ birbVelocity (stateAfter onePipe None state0 [KeyP; KeySpace]) = 0.
Proof. cbv zeta. repeat split; reflexivity. Qed.

(** C5 (amended): in every paused state of a run, an interval tick
    leaves the state unchanged (the tick reducer returns a paused state
    as it is, and the gate has unsubscribed it anyway); a space press
    leaves the state unchanged too, because [gatedGame$] is switched to
    [EMPTY] while paused, although the flap reducer itself does not test
    [paused]; a P press still takes effect: it clears [paused] and
    changes nothing else. *)
Theorem C5_pause_gating (rows : list Row) (gp : option (list Path.Point))
    (s0 : State) (es : list Event)
    (Hpaused : paused (stateAfter rows gp s0 es) = true) :
  Gated.tick rows gp (stateAfter rows gp s0 es) = stateAfter rows gp s0 es
  /\ stateAfter rows gp s0 (es ++ [Interval]) = stateAfter rows gp s0 es
  /\ stateAfter rows gp s0 (es ++ [KeySpace]) = stateAfter rows gp s0 es
  /\ stateAfter rows gp s0 (es ++ [KeyP])
     = set_paused false (stateAfter rows gp s0 es)
  /\ (gameEnd (stateAfter rows gp s0 es) = false ->
      birbVelocity (flap (stateAfter rows gp s0 es)) = -7).
Proof.
  destruct (gate_in_sync rows gp s0 es) as [H1 H2].
  rewrite Hpaused in H2. rewrite <- H2 in H1.
  split; [apply Gated_tick_paused; exact Hpaused|].
  rewrite !stateAfter_snoc. cbn [emit snd]. rewrite <- H2, H1.
  repeat split.
  intros Hlive. rewrite flap_live by exact Hlive. reflexivity.
Qed.

Lemma C5_pause_gating_witness :
  let s := stateAfter onePipe None state0 [Interval; KeyP] in
  paused s = true
  /\ stateAfter onePipe None state0 ([Interval; KeyP] ++ [Interval]) = s
  /\ stateAfter onePipe None state0 ([Interval; KeyP] ++ [KeySpace]) = s
  /\ paused (stateAfter onePipe None state0 ([Interval; KeyP] ++ [KeyP]))
     = false.
Proof.
  cbv zeta.
  assert (Hp : paused (stateAfter onePipe None state0 [Interval; KeyP]) = true)
    by reflexivity.
  pose proof (C5_pause_gating onePipe None state0 [Interval; KeyP] Hp)
    as (_ & Ht & Hf & Hk & _).
  split; [exact Hp|]. split; [exact Ht|]. split; [exact Hf|].
  rewrite Hk. reflexivity.
Defined.

(** ** What a run depends on *)

Lemma runState_cons (rows : list Row) (gp : option (list Path.Point))
    (s : State) (rd : Reducer) (rest : list Reducer) :
  runState rows gp s (rd :: rest)
  = if negb (gameEnd (applyReducer rows gp s rd))
    then applyReducer rows gp s rd
           :: runState rows gp (applyReducer rows gp s rd) rest
    else [applyReducer rows gp s rd].
Proof. reflexivity. Qed.

(** No reducer reads [ghostBirbPos] except to copy it, and the ghost
    path is read by the gated tick only to fill that field. *)
Lemma applyReducer_ghost_blind (rows : list Row)
    (gp : option (list Path.Point)) (s : State) (rd : Reducer) :
  set_ghostBirbPos None (applyReducer rows gp s rd)
  = set_ghostBirbPos None
      (applyReducer rows None (set_ghostBirbPos None s) rd).
Proof.
  destruct rd as [|now|path t| |b]; cbn [applyReducer].
  - unfold flap.
    change (gameEnd (set_ghostBirbPos None s)) with (gameEnd s).
    destruct (gameEnd s); reflexivity.
  - unfold WallClock.tick.
    change (gameEnd (set_ghostBirbPos None s)) with (gameEnd s).
    destruct (gameEnd s); reflexivity.
  - destruct (WallClock.ghostReducer path t) as [f|] eqn:E; [|reflexivity].
    destruct path as [|p0 rest]; cbn [WallClock.ghostReducer] in E;
      [discriminate|].
    injection E as <-.
    destruct (Qle_bool t (totalTimeTravelled p0 rest)); reflexivity.
  - unfold Gated.tick.
    change (gameEnd (set_ghostBirbPos None s)) with (gameEnd s).
    change (paused (set_ghostBirbPos None s)) with (paused s).
    destruct (gameEnd s || paused s); reflexivity.
  - reflexivity.
Qed.

Lemma applyReducer_sameButGhost (rows : list Row)
    (g1 g2 : option (list Path.Point)) (s1 s2 : State) (rd : Reducer) :
  sameButGhost s1 s2 ->
  sameButGhost (applyReducer rows g1 s1 rd) (applyReducer rows g2 s2 rd).
Proof.
  unfold sameButGhost. intros H.
  rewrite (applyReducer_ghost_blind rows g1 s1 rd),
          (applyReducer_ghost_blind rows g2 s2 rd), H.
  reflexivity.
Qed.

Lemma sameButGhost_gameEnd (s1 s2 : State) :
  sameButGhost s1 s2 -> gameEnd s1 = gameEnd s2.
Proof.
  intros H. apply sameButGhost_weaken, sameButGhostPaused_fields in H.
  apply H.
Qed.

Lemma runState_sameButGhost (rows : list Row)
    (g1 g2 : option (list Path.Point)) (rds : list Reducer) :
  forall s1 s2,
    sameButGhost s1 s2 ->
    Forall2 sameButGhost (runState rows g1 s1 rds) (runState rows g2 s2 rds).
Proof.
  induction rds as [|rd rest IH]; intros s1 s2 H; [constructor|].
  rewrite !runState_cons.
  pose proof (applyReducer_sameButGhost rows g1 g2 s1 s2 rd H) as H'.
  rewrite (sameButGhost_gameEnd _ _ H').
  destruct (negb (gameEnd (applyReducer rows g2 s2 rd))).
  - constructor; [exact H' | apply IH; exact H'].
  - constructor; [exact H' | constructor].
Qed.

(** C4, as stated, fails on the tick of src/main.ts: the elapsed time it
    stores is [performance.now() - s.timeStart], so an interval that
    fires 20 ms after the run start stores 20, not 0 + 16, and the same
    tick on the same state gives another state for another sample. *)
Lemma C4_wall_clock_tick_samples_the_clock :
  gameEnd state0 = false
  /\ elapsedTime (WallClock.tick onePipe 20 state0) == 20
  /\ ~ elapsedTime (WallClock.tick onePipe 20 state0)
       == elapsedTime state0 + Constants.TICK_RATE_MS
  /\ ~ elapsedTime (WallClock.tick onePipe 20 state0)
       == elapsedTime (WallClock.tick onePipe 36 state0).
Proof.
  split; [reflexivity|].
  split; [vm_compute; reflexivity|].
  split; intros H; vm_compute in H; discriminate.
Qed.

(** C4 (amended): the tick of the revision with the pause gate stores
    [s.elapsedTime + TICK_RATE_MS] as the new elapsed time of a live,
    unpaused state and reads no clock; its runs are a function of the
    schedule, the initial state, the events and the ghost path, and the
    ghost path only shows in [ghostBirbPos]: two runs of the same events
    from the same initial state agree on every other field, whatever
    their ghost paths.  The tick of src/main.ts stores
    [performance.now() - s.timeStart] instead. *)
Theorem C4_clock_driven_determinism (rows : list Row) (s : State)
    (Hlive : gameEnd s = false) (Hrun : paused s = false) :
  (forall gp,
      elapsedTime (Gated.tick rows gp s)
      = elapsedTime s + Constants.TICK_RATE_MS)
  /\ (forall g1 g2 es,
        Forall2 sameButGhost
          (runState rows g1 s (reducersOf es))
          (runState rows g2 s (reducersOf es)))
  /\ (forall now,
        elapsedTime (WallClock.tick rows now s) = now - timeStart s).
Proof.
  split; [|split].
  - intros gp. rewrite Gated_tick_live by assumption. reflexivity.
  - intros g1 g2 es. apply runState_sameButGhost. reflexivity.
  - intros now. rewrite WallClock_tick_live by assumption. reflexivity.
Qed.

Lemma C4_clock_driven_determinism_witness :
  gameEnd state0 = false /\ paused state0 = false
  /\ elapsedTime (Gated.tick onePipe (Some examplePath) state0)
     = 0 + Constants.TICK_RATE_MS
  /\ Forall2 sameButGhost
       (runState onePipe None state0 (reducersOf (flapThen 3)))
       (runState onePipe (Some examplePath) state0 (reducersOf (flapThen 3))).
Proof.
  pose proof (C4_clock_driven_determinism onePipe state0 eq_refl eq_refl)
    as (He & Hr & _).
  split; [reflexivity|]. split; [reflexivity|].
  split; [apply He | apply Hr].
Defined.

(** ** Score *)

Lemma scoreUpdate_passedCount (rows : list Row) (ct : Q) (s : State) :
  scoreUpdate rows ct s = passedCount ct (pipeQueueUpdated rows ct s).
Proof. reflexivity. Qed.

Lemma passedCount_cons (now : Q) (p : Pipe) (q : list Pipe) :
  passedCount now (p :: q)
  = ((if Qle_bool (time p) now && passed p then 1 else 0)
     + passedCount now q)%nat.
Proof.
  unfold passedCount. cbn [filter].
  destruct (Qle_bool (time p) now); cbn [andb filter]; [|reflexivity].
  destruct (passed p); reflexivity.
Qed.

(** [passed] is sticky and a spawned pipe stays spawned. *)
Lemma passedCount_update (e ct : Q) (q : list Pipe) :
  e <= ct ->
  (passedCount e q <= passedCount ct (map (updatePipe ct) q))%nat.
Proof.
  intros Hle. induction q as [|p q IH]; [apply Nat.le_refl|].
  cbn [map]. rewrite !passedCount_cons.
  apply Nat.add_le_mono; [|exact IH].
  destruct (Qle_bool (time p) e) eqn:Et; cbn [andb]; [|apply Nat.le_0_l].
  destruct (passed p) eqn:Ep; [|apply Nat.le_0_l].
  assert (Ht : Qle_bool (time (updatePipe ct p)) ct = true).
  { cbn [updatePipe time]. apply Qle_bool_iff. qbool. lra. }
  assert (Hp : passed (updatePipe ct p) = true).
  { cbn [updatePipe passed]. rewrite Ep.
    destruct (Qgt_bool BIRB_X _); reflexivity. }
  rewrite Ht, Hp. apply Nat.le_refl.
Qed.

Lemma passedCount_pipeProperties (now : Q) (rows : list Row) :
  passedCount now (pipeProperties rows) = 0%nat.
Proof.
  unfold pipeProperties. induction rows as [|[[gy gh] t] rows IH];
    [reflexivity|].
  cbn [map]. rewrite passedCount_cons, IH. cbn [pipeOfRow passed].
  rewrite andb_false_r. reflexivity.
Qed.

Lemma scoreInv_initial (rows : list Row) (t0 seed0 : Q) :
  scoreInv rows (initialState t0 seed0).
Proof.
  unfold scoreInv. cbn [initialState score elapsedTime].
  unfold pipeQueue. cbn [initialState pipeRead].
  rewrite passedCount_pipeProperties. reflexivity.
Qed.

Lemma tickResult_score (rows : list Row) (ct : Q) (s : State)
    (g : option Q) :
  scoreInv rows s -> elapsedTime s <= ct ->
  scoreInv rows (tickResult rows ct s g)
  /\ (score s <= score (tickResult rows ct s g))%nat.
Proof.
  intros Hinv Hle. split.
  - reflexivity.
  - cbn [tickResult score]. rewrite scoreUpdate_passedCount, Hinv.
    apply passedCount_update. exact Hle.
Qed.

Lemma applyReducer_notTick_score (rows : list Row)
    (gp : option (list Path.Point)) (s : State) (rd : Reducer) :
  isTick rd = false ->
  score (applyReducer rows gp s rd) = score s
  /\ elapsedTime (applyReducer rows gp s rd) = elapsedTime s
  /\ pipeRead (applyReducer rows gp s rd) = pipeRead s
  /\ birbLives (applyReducer rows gp s rd) = birbLives s.
Proof.
  destruct rd as [|now|path t| |b]; cbn [isTick applyReducer];
    try discriminate; intros _.
  - unfold flap. destruct (gameEnd s); repeat split.
  - destruct (WallClock.ghostReducer path t) as [f|] eqn:E;
      [|repeat split].
    destruct path as [|p0 rest]; cbn [WallClock.ghostReducer] in E;
      [discriminate|].
    injection E as <-.
    destruct (Qle_bool t (totalTimeTravelled p0 rest)); repeat split.
  - repeat split.
Qed.

Lemma applyReducer_score (rows : list Row) (gp : option (list Path.Point))
    (s : State) (rd : Reducer) :
  scoreInv rows s ->
  match rd with
  | RWallTick now => elapsedTime s <= now - timeStart s
  | _ => True
  end ->
  scoreInv rows (applyReducer rows gp s rd)
  /\ (score s <= score (applyReducer rows gp s rd))%nat.
Proof.
  intros Hinv Hclock.
  destruct (isTick rd) eqn:Etick.
  - destruct rd as [|now|path t| |b]; try discriminate Etick;
      cbn [applyReducer].
    + unfold WallClock.tick. destruct (gameEnd s).
      * split; [exact Hinv | apply Nat.le_refl].
      * apply tickResult_score; assumption.
    + unfold Gated.tick. destruct (gameEnd s || paused s).
      * split; [exact Hinv | apply Nat.le_refl].
      * apply tickResult_score; [assumption|].
        unfold Constants.TICK_RATE_MS. lra.
  - destruct (applyReducer_notTick_score rows gp s rd Etick)
      as (Hs & He & Hq & _).
    split; [|rewrite Hs; apply Nat.le_refl].
    unfold scoreInv, pipeQueue in *. rewrite Hs, He, Hq. exact Hinv.
Qed.

Lemma runState_score (rows : list Row) (gp : option (list Path.Point))
    (rds : list Reducer) :
  forall s,
    scoreInv rows s -> clockMonotone rows gp s rds ->
    Sorted le (map score (s :: runState rows gp s rds))
    /\ Forall (scoreInv rows) (runState rows gp s rds).
Proof.
  induction rds as [|rd rest IH]; intros s Hinv Hclock.
  - split; repeat constructor.
  - destruct Hclock as [Hrd Hrest].
    destruct (applyReducer_score rows gp s rd Hinv Hrd) as [Hinv' Hle].
    destruct (IH _ Hinv' Hrest) as [Hsorted Hall].
    rewrite runState_cons.
    destruct (negb (gameEnd (applyReducer rows gp s rd))).
    + split.
      * cbn [map]. constructor; [exact Hsorted | constructor; exact Hle].
      * constructor; assumption.
    + split.
      * cbn [map]. repeat constructor. exact Hle.
      * repeat constructor. exact Hinv'.
Qed.

(** C6: along a run from the initial state the score never decreases,
    provided the wall clock of the src/main.ts tick does not run
    backwards (the gated tick needs no such proviso); every state of the
    run has as its score the number of pipes of its queue that have
    spawned and have [passed] set, which is what each tick recomputes;
    and the reducers other than the ticks leave the score alone. *)
Theorem C6_score_monotone (rows : list Row) (gp : option (list Path.Point))
    (t0 seed0 : Q) (rds : list Reducer)
    (Hclock : clockMonotone rows gp (initialState t0 seed0) rds) :
  Sorted le (map score (initialState t0 seed0
                          :: runState rows gp (initialState t0 seed0) rds))
  /\ Forall (scoreInv rows) (runState rows gp (initialState t0 seed0) rds)
  /\ (forall ct s g,
        score (tickResult rows ct s g)
        = passedCount ct (pipeQueueUpdated rows ct s))
  /\ (forall s rd,
        isTick rd = false -> score (applyReducer rows gp s rd) = score s).
Proof.
  destruct (runState_score rows gp rds _ (scoreInv_initial rows t0 seed0)
              Hclock) as [Hsorted Hall].
  split; [exact Hsorted|]. split; [exact Hall|].
  split; [reflexivity|].
  intros s rd Hrd. apply applyReducer_notTick_score. exact Hrd.
Qed.

Lemma C6_score_monotone_witness :
  clockMonotone onePipe None state0 lateRun
  /\ Sorted le (map score (state0 :: runState onePipe None state0 lateRun))
  /\ map score (runState onePipe None state0 lateRun) = [0; 0; 0; 1]%nat.
Proof.
  assert (Hclock : clockMonotone onePipe None state0 lateRun).
  { vm_compute. repeat split; discriminate. }
  split; [exact Hclock|].
  split; [|vm_compute; reflexivity].
  apply (C6_score_monotone onePipe None 0 Bounce.SEED lateRun Hclock).
Defined.

(** ** Lives *)

Lemma newBirbLives_spec (rows : list Row) (ct : Q) (s : State) :
  newBirbLives rows ct s
  = if collideFrame rows ct s then Z.max 0 (birbLives s - 1)
    else birbLives s.
Proof.
  unfold newBirbLives, collideFrame.
  destruct (firstHitThisPipe rows ct s || hitCanvas s); [|reflexivity].
  destruct (Z.leb_spec (birbLives s - 1) 0); lia.
Qed.

Lemma newBirbLives_bounds (rows : list Row) (ct : Q) (s : State) :
  (0 <= birbLives s)%Z ->
  (0 <= newBirbLives rows ct s <= birbLives s)%Z.
Proof.
  intros H. rewrite newBirbLives_spec.
  destruct (collideFrame rows ct s); lia.
Qed.

Lemma applyReducer_lives (rows : list Row) (gp : option (list Path.Point))
    (s : State) (rd : Reducer) :
  (0 <= birbLives s)%Z ->
  (0 <= birbLives (applyReducer rows gp s rd) <= birbLives s)%Z.
Proof.
  intros H. destruct (isTick rd) eqn:Etick.
  - destruct rd as [|now|path t| |b]; try discriminate Etick;
      cbn [applyReducer].
    + unfold WallClock.tick. destruct (gameEnd s); [lia|].
      apply newBirbLives_bounds. exact H.
    + unfold Gated.tick. destruct (gameEnd s || paused s); [lia|].
      apply newBirbLives_bounds. exact H.
  - destruct (applyReducer_notTick_score rows gp s rd Etick)
      as (_ & _ & _ & ->).
    lia.
Qed.

Lemma runState_lives (rows : list Row) (gp : option (list Path.Point))
    (rds : list Reducer) :
  forall s,
    (0 <= birbLives s)%Z ->
    Sorted Z.ge (map birbLives (s :: runState rows gp s rds))
    /\ Forall (fun x => (0 <= birbLives x <= birbLives s)%Z)
              (runState rows gp s rds).
Proof.
  induction rds as [|rd rest IH]; intros s H.
  - split; repeat constructor.
  - pose proof (applyReducer_lives rows gp s rd H) as H'.
    destruct (IH (applyReducer rows gp s rd) ltac:(lia)) as [Hsorted Hall].
    rewrite runState_cons.
    destruct (negb (gameEnd (applyReducer rows gp s rd))).
    + split.
      * cbn [map]. constructor; [exact Hsorted | constructor; lia].
      * constructor; [lia|].
        eapply Forall_impl; [|exact Hall]. cbn beta. intros x Hx. lia.
    + split.
      * cbn [map]. repeat constructor. lia.
      * repeat constructor; lia.
Qed.

(** C7: along a run from the initial state [birbLives] never increases
    and stays between 0 and 3; a tick past the early return stores
    [max 0 (birbLives - 1)] when the frame collides (a first pipe hit or
    a canvas hit) and the old value otherwise; a tick that returns early
    and every reducer other than a tick leave it unchanged. *)
Theorem C7_lives_monotone (rows : list Row) (gp : option (list Path.Point))
    (t0 seed0 : Q) (rds : list Reducer) :
  Sorted Z.ge (map birbLives (initialState t0 seed0
                                :: runState rows gp (initialState t0 seed0) rds))
  /\ Forall (fun x => (0 <= birbLives x <= 3)%Z)
            (runState rows gp (initialState t0 seed0) rds)
  /\ (forall ct s g,
        birbLives (tickResult rows ct s g)
        = if collideFrame rows ct s then Z.max 0 (birbLives s - 1)
          else birbLives s)
  /\ (forall s rd,
        isTick rd = false ->
        birbLives (applyReducer rows gp s rd) = birbLives s)
  /\ (forall s rd,
        gameEnd s = true ->
        birbLives (applyReducer rows gp s rd) = birbLives s).
Proof.
  destruct (runState_lives rows gp rds (initialState t0 seed0)
              ltac:(cbn; lia)) as [Hsorted Hall].
  split; [exact Hsorted|]. split; [exact Hall|].
  split; [intros ct s g; apply newBirbLives_spec|].
  split.
  - intros s rd Hrd. apply applyReducer_notTick_score. exact Hrd.
  - intros s rd Hend.
    apply (sameButGhostPaused_fields _ _ (applyReducer_end rows gp s rd Hend)).
Qed.

(** ** Collisions with a pipe *)

Lemma opt_is_neq (a : option Q) (b : Q) : opt_is a b = negb (opt_neq a b).
Proof. destruct a as [x|]; cbn; [rewrite negb_involutive|]; reflexivity. Qed.

(** While the marker holds the id of the overlapping pipe the frame is
    no first hit and the position is not clamped to the gap. *)
Lemma marked_pipe_not_clamped (rows : list Row) (ct : Q) (s : State)
    (g : option Q) (o : Pipe) :
  overlapping rows ct s = Some o ->
  opt_is (invinciblePipeTime s) (time o) = true ->
  firstHitThisPipe rows ct s = false
  /\ birbPosition (tickResult rows ct s g) = updatedBirbPosition s.
Proof.
  intros Hover Hmark.
  assert (Hfirst : firstHitThisPipe rows ct s = false).
  { unfold firstHitThisPipe. rewrite Hover.
    rewrite opt_is_neq in Hmark. apply negb_true_iff in Hmark.
    rewrite Hmark. apply andb_false_r. }
  split; [exact Hfirst|].
  cbn [tickResult birbPosition]. unfold newBirbPosition, shouldClamp.
  rewrite Hover, Hfirst. reflexivity.
Qed.

(** C2, as stated, fails while the invincibility marker holds the id of
    the pipe.  After the 116 ticks of [approach] the bird (at 230.4,
    above the gap that starts at 250) has just hit the pipe on its side
    and the marker holds the pipe's spawn time 0.  On the next tick the
    pipe still overlaps the bird, its previous overlap flag is set and
    the bird is still above the gap, yet the tick keeps the integrated
    position instead of the gap bound 250. *)
Lemma C2_no_clamp_inside_marked_pipe :
  let s := stateAfter onePipe None state0 approach in
  let ct := elapsedTime s + Constants.TICK_RATE_MS in
  gameEnd s = false /\ paused s = false
  /\ birbPosition s == 1152 # 5
  /\ definedAnd (fun t => t == 0) (invinciblePipeTime s)
  /\ definedAnd
       (fun o =>
          time o == 0 /\ gapTop o == 250 /\ gapBottom o == 320
          /\ prevPassing o = true
          /\ outsideGapY o (updatedBirbPosition s) = true
          /\ updatedBirbPosition s < gapTop o
          /\ birbPosition (Gated.tick onePipe None s) == updatedBirbPosition s
          /\ ~ birbPosition (Gated.tick onePipe None s) == gapTop o
          /\ ~ birbPosition (Gated.tick onePipe None s) == gapBottom o)
       (overlapping onePipe ct s).
Proof.
  vm_compute. repeat split; try reflexivity; try discriminate.
Qed.

(** C2 (amended): on a tick past the early return, if a pipe overlaps
    the bird's horizontal span, the integrated and canvas-clamped
    position is outside its gap, its previous overlap flag was already
    set, and the invincibility marker does not already hold that pipe's
    spawn time, then the resolved position is the gap bound on the side
    the bird is on: [gapTop] when the position is at or above it,
    [gapBottom] otherwise. *)
Theorem C2_collision_clamp (rows : list Row) (ct : Q) (s : State)
    (g : option Q) (o : Pipe)
    (Hover : overlapping rows ct s = Some o)
    (Hout : outsideGapY o (updatedBirbPosition s) = true)
    (Hprev : prevPassing o = true)
    (Hfresh : opt_neq (invinciblePipeTime s) (time o) = true) :
  firstHitThisPipe rows ct s = true
  /\ isSideEntry rows ct s = false
  /\ birbPosition (tickResult rows ct s g)
     = clampToPipeGap o (updatedBirbPosition s)
  /\ (updatedBirbPosition s <= gapTop o ->
      birbPosition (tickResult rows ct s g) = gapTop o)
  /\ (gapTop o < updatedBirbPosition s ->
      gapBottom o <= updatedBirbPosition s
      /\ birbPosition (tickResult rows ct s g) = gapBottom o).
Proof.
  assert (Hfirst : firstHitThisPipe rows ct s = true).
  { unfold firstHitThisPipe. rewrite Hover, Hout, Hfresh. reflexivity. }
  assert (Hside : isSideEntry rows ct s = false).
  { unfold isSideEntry. rewrite Hover, Hfirst, Hprev. reflexivity. }
  assert (Hpos : birbPosition (tickResult rows ct s g)
                 = clampToPipeGap o (updatedBirbPosition s)).
  { cbn [tickResult birbPosition]. unfold newBirbPosition, shouldClamp.
    rewrite Hover, Hfirst, Hside. reflexivity. }
  split; [exact Hfirst|]. split; [exact Hside|]. split; [exact Hpos|].
  rewrite Hpos. unfold clampToPipeGap, outsideGapY in *. split.
  - intros Hle. apply Qle_bool_iff in Hle. rewrite Hle. reflexivity.
  - intros Hlt. apply Qle_bool_false in Hlt. rewrite Hlt in *.
    cbn [orb] in Hout. rewrite Hout. split; [|reflexivity].
    apply Qle_bool_iff. exact Hout.
Qed.

Lemma C2_collision_clamp_witness :
  let ct := elapsedTime insideGap + Constants.TICK_RATE_MS in
  exists o,
    overlapping onePipe ct insideGap = Some o
    /\ updatedBirbPosition insideGap <= gapTop o
    /\ birbPosition (Gated.tick onePipe None insideGap) = gapTop o.
Proof.
  cbv zeta.
  destruct (overlapping onePipe (elapsedTime insideGap + Constants.TICK_RATE_MS)
              insideGap) as [o|] eqn:Hover; [|vm_compute in Hover; discriminate].
  exists o.
  assert (Ho : o = updatePipe (elapsedTime insideGap + Constants.TICK_RATE_MS)
                     (updatePipe 1984 (pipeOfRow (3 # 4, 1 # 4, 0)))).
  { unfold overlapping, currentPipePassing in Hover.
    apply find_some in Hover as [Hin _].
    unfold pipeQueuePass in Hin. apply filter_In in Hin as [Hin _].
    cbn in Hin. destruct Hin as [<-|[]]. reflexivity. }
  assert (Hle : updatedBirbPosition insideGap <= gapTop o).
  { rewrite Ho. vm_compute. discriminate. }
  split; [reflexivity|]. split; [exact Hle|].
  rewrite Gated_tick_live by reflexivity.
  apply (C2_collision_clamp onePipe _ insideGap _ o Hover).
  - rewrite Ho. vm_compute. reflexivity.
  - rewrite Ho. vm_compute. reflexivity.
  - rewrite Ho. vm_compute. reflexivity.
  - exact Hle.
Defined.

(** ** The invincibility marker *)

Lemma no_overlap_no_hit (rows : list Row) (ct : Q) (s : State)
    (g : option Q) :
  overlapping rows ct s = None ->
  firstHitThisPipe rows ct s = false
  /\ invinciblePipeTime (tickResult rows ct s g) = None.
Proof.
  intros Hover. cbn [tickResult invinciblePipeTime].
  unfold firstHitThisPipe, invinciblePipeTime2. rewrite Hover.
  split; reflexivity.
Qed.

(** The pipe a tick tests the bird against is the first pipe of the
    spawned queue that overlaps the bird's horizontal span. *)
Lemma overlapping_first (rows : list Row) (ct : Q) (s : State) (o : Pipe) :
  overlapping rows ct s = Some o ->
  birdPassing o = true
  /\ exists l1 l2,
      pipeQueuePass rows ct s = l1 ++ o :: l2
      /\ Forall (fun p => birdPassing p = false) l1.
Proof.
  unfold overlapping, currentPipePassing.
  induction (pipeQueuePass rows ct s) as [|p l IH]; cbn [find];
    [discriminate|].
  destruct (birdPassing p) eqn:Ep; cbn [Bool.eqb].
  - intros [= <-]. split; [exact Ep|].
    exists [], l. split; [reflexivity | constructor].
  - intros H. destruct (IH H) as (Hb & l1 & l2 & -> & Hl1).
    split; [exact Hb|].
    exists (p :: l1), l2. split; [reflexivity|].
    constructor; assumption.
Qed.

Lemma tick_lives_without_first_hit (rows : list Row) (ct : Q) (s : State)
    (g : option Q) :
  firstHitThisPipe rows ct s = false ->
  birbLives (tickResult rows ct s g)
  = if hitCanvas s then Z.max 0 (birbLives s - 1) else birbLives s.
Proof.
  intros H. cbn [tickResult birbLives]. rewrite newBirbLives_spec.
  unfold collideFrame. rewrite H. reflexivity.
Qed.

(** C3, as stated, fails where it says that the marker is retained
    while the bird still overlaps the marked pipe.  With the schedule
    [twoPipes] the bird hits the pipe spawned at run start on its side
    at 1856 ms and the marker holds 0.  At 2144 ms that pipe still
    overlaps the bird, but the pipe spawned at 300 ms, which comes first
    in the schedule, now overlaps it as well and is the one [find]
    returns; the bird is inside its gap, and the tick clears the
    marker. *)
Lemma C3_marker_cleared_while_marked_pipe_overlaps :
  let s := stateAfter twoPipes None state0 hitThenGlide in
  let ct := elapsedTime s + Constants.TICK_RATE_MS in
  gameEnd s = false /\ paused s = false
  /\ elapsedTime s == 2128
  /\ definedAnd (fun t => t == 0) (invinciblePipeTime s)
  /\ existsb (fun p => Qeq_bool (time p) 0 && birdPassing p)
             (pipeQueuePass twoPipes ct s) = true
  /\ definedAnd
       (fun o =>
          time o == 300
          /\ outsideGapY o (updatedBirbPosition s) = false)
       (overlapping twoPipes ct s)
  /\ invinciblePipeTime (Gated.tick twoPipes None s) = None.
Proof.
  vm_compute. repeat split; try reflexivity; try discriminate.
Qed.

(** C3 (amended): on a tick past the early return, with [o] the pipe
    the tick tests the bird against (the first pipe of the spawned queue,
    in schedule order, that overlaps the bird's horizontal span): if the
    marker already holds the spawn time of [o], no life is taken for the
    pipe, [birbLives] changes only through a canvas hit, and the marker
    is kept; if the bird is outside the gap of [o] and the marker does
    not hold its spawn time, the hit is fresh: it costs a life and the
    marker becomes the spawn time of [o]; if the bird is inside the gap
    of [o] and the marker does not hold its spawn time, or if no pipe
    overlaps the bird, the marker is cleared and only a canvas hit costs
    a life.  The marker follows the pipe [find] returns, not every pipe
    that overlaps the bird. *)
Theorem C3_invincibility_by_id (rows : list Row) (ct : Q) (s : State)
    (g : option Q) :
  (forall o,
      overlapping rows ct s = Some o ->
      birdPassing o = true
      /\ exists l1 l2,
          pipeQueuePass rows ct s = l1 ++ o :: l2
          /\ Forall (fun p => birdPassing p = false) l1)
  /\ (forall o,
        overlapping rows ct s = Some o ->
        opt_is (invinciblePipeTime s) (time o) = true ->
        birbLives (tickResult rows ct s g)
        = (if hitCanvas s then Z.max 0 (birbLives s - 1) else birbLives s)
        /\ invinciblePipeTime (tickResult rows ct s g)
           = invinciblePipeTime s)
  /\ (forall o,
        overlapping rows ct s = Some o ->
        outsideGapY o (updatedBirbPosition s) = true ->
        opt_is (invinciblePipeTime s) (time o) = false ->
        birbLives (tickResult rows ct s g) = Z.max 0 (birbLives s - 1)
        /\ invinciblePipeTime (tickResult rows ct s g) = Some (time o))
  /\ (forall o,
        overlapping rows ct s = Some o ->
        outsideGapY o (updatedBirbPosition s) = false ->
        opt_is (invinciblePipeTime s) (time o) = false ->
        birbLives (tickResult rows ct s g)
        = (if hitCanvas s then Z.max 0 (birbLives s - 1) else birbLives s)
        /\ invinciblePipeTime (tickResult rows ct s g) = None)
  /\ (overlapping rows ct s = None ->
      birbLives (tickResult rows ct s g)
      = (if hitCanvas s then Z.max 0 (birbLives s - 1) else birbLives s)
      /\ invinciblePipeTime (tickResult rows ct s g) = None).
Proof.
  split; [intros o Ho; apply overlapping_first; exact Ho|].
  split; [|split; [|split]].
  - intros o Hover Hmark.
    destruct (marked_pipe_not_clamped rows ct s g o Hover Hmark)
      as [Hfirst _].
    split; [apply tick_lives_without_first_hit; exact Hfirst|].
    cbn [tickResult invinciblePipeTime].
    unfold invinciblePipeTime2, keepPiercing.
    rewrite Hover, Hfirst, Hmark. reflexivity.
  - intros o Hover Hout Hmark.
    assert (Hfirst : firstHitThisPipe rows ct s = true).
    { unfold firstHitThisPipe. rewrite Hover, Hout.
      rewrite opt_is_neq in Hmark. apply negb_false_iff in Hmark.
      rewrite Hmark. reflexivity. }
    split.
    + cbn [tickResult birbLives]. rewrite newBirbLives_spec.
      unfold collideFrame. rewrite Hfirst. reflexivity.
    + cbn [tickResult invinciblePipeTime]. unfold invinciblePipeTime2.
      rewrite Hover, Hfirst. reflexivity.
  - intros o Hover Hin Hmark.
    assert (Hfirst : firstHitThisPipe rows ct s = false).
    { unfold firstHitThisPipe. rewrite Hover, Hin. reflexivity. }
    split; [apply tick_lives_without_first_hit; exact Hfirst|].
    cbn [tickResult invinciblePipeTime].
    unfold invinciblePipeTime2, keepPiercing.
    rewrite Hover, Hfirst, Hmark. reflexivity.
  - intros Hover.
    destruct (no_overlap_no_hit rows ct s g Hover) as [Hfirst Hm].
    split; [apply tick_lives_without_first_hit; exact Hfirst | exact Hm].
Qed.

Lemma C3_invincibility_by_id_witness :
  (exists o,
      overlapping onePipe 2000 piercing = Some o
      /\ opt_is (invinciblePipeTime piercing) (time o) = true
      /\ birbLives (tickResult onePipe 2000 piercing None) = 2%Z
      /\ invinciblePipeTime (tickResult onePipe 2000 piercing None)
         = Some 0)
  /\ (exists o,
        overlapping onePipe 1856 beforeEntry = Some o
        /\ outsideGapY o (updatedBirbPosition beforeEntry) = true
        /\ opt_is (invinciblePipeTime beforeEntry) (time o) = false
        /\ birbLives (tickResult onePipe 1856 beforeEntry None) = 2%Z
        /\ invinciblePipeTime (tickResult onePipe 1856 beforeEntry None)
           = Some (time o)).
Proof.
  split.
  - destruct (overlapping onePipe 2000 piercing) as [o|] eqn:Hover;
      [|vm_compute in Hover; discriminate].
    exists o.
    assert (Ho : o = updatePipe 2000
                       (updatePipe 1984 (pipeOfRow (3 # 4, 1 # 4, 0)))).
    { unfold overlapping, currentPipePassing in Hover.
      apply find_some in Hover as [Hin _].
      unfold pipeQueuePass in Hin. apply filter_In in Hin as [Hin _].
      cbn in Hin. destruct Hin as [<-|[]]. reflexivity. }
    assert (Hmark : opt_is (invinciblePipeTime piercing) (time o) = true)
      by (rewrite Ho; vm_compute; reflexivity).
    destruct (C3_invincibility_by_id onePipe 2000 piercing None)
      as (_ & Hkeep & _).
    destruct (Hkeep o Hover Hmark) as [Hlives Hm].
    split; [reflexivity|]. split; [exact Hmark|].
    split; [rewrite Hlives; reflexivity | rewrite Hm; reflexivity].
  - destruct (overlapping onePipe 1856 beforeEntry) as [o|] eqn:Hover;
      [|vm_compute in Hover; discriminate].
    exists o.
    assert (Ho : o = updatePipe 1856
                       (updatePipe 1840 (pipeOfRow (3 # 4, 1 # 4, 0)))).
    { unfold overlapping, currentPipePassing in Hover.
      apply find_some in Hover as [Hin _].
      unfold pipeQueuePass in Hin. apply filter_In in Hin as [Hin _].
      cbn in Hin. destruct Hin as [<-|[]]. reflexivity. }
    assert (Hout : outsideGapY o (updatedBirbPosition beforeEntry) = true)
      by (rewrite Ho; vm_compute; reflexivity).
    assert (Hmark : opt_is (invinciblePipeTime beforeEntry) (time o) = false)
      by reflexivity.
    destruct (C3_invincibility_by_id onePipe 1856 beforeEntry None)
      as (_ & _ & Hfresh & _).
    destruct (Hfresh o Hover Hout Hmark) as [Hlives Hm].
    split; [reflexivity|]. split; [exact Hout|]. split; [exact Hmark|].
    split; [rewrite Hlives; reflexivity | exact Hm].
Defined.

Lemma C7_lives_monotone_witness :
  Sorted Z.ge (map birbLives (state0 :: runState [] None state0 (wallTicks 30)))
  /\ isTick RFlap = false
  /\ birbLives (applyReducer [] None state0 RFlap) = birbLives state0.
Proof.
  destruct (C7_lives_monotone [] None 0 Bounce.SEED (wallTicks 30))
    as (Hsorted & _ & _ & Hother & _).
  split; [exact Hsorted|]. split; [reflexivity|].
  apply Hother. reflexivity.
Defined.

(** * Further properties of the reducers *)

(** ** Invariants of runs *)

Lemma sameGame_fields (s1 s2 : State) :
  sameGame s1 s2 ->
  birbPosition s1 = birbPosition s2 /\ birbLives s1 = birbLives s2
  /\ timeStart s1 = timeStart s2 /\ elapsedTime s1 = elapsedTime s2
  /\ score s1 = score s2 /\ gameOver s1 = gameOver s2
  /\ pipeRead s1 = pipeRead s2 /\ pipeRendering s1 = pipeRendering s2
  /\ rngSeed s1 = rngSeed s2
  /\ invinciblePipeTime s1 = invinciblePipeTime s2.
Proof.
  unfold sameGame. destruct s1, s2; cbn.
  intros [= -> -> -> -> -> -> -> -> -> ->]. repeat split.
Qed.

(** A reducer either is a tick that runs past its early return, or it
    leaves the game as it is up to the velocity, the ghost position and
    the pause flag. *)
Lemma applyReducer_cases (rows : list Row) (gp : option (list Path.Point))
    (s : State) (rd : Reducer) :
  (gameEnd s = false
   /\ exists ct g,
       applyReducer rows gp s rd = tickResult rows ct s g
       /\ ((rd = RTick /\ paused s = false
            /\ ct = elapsedTime s + Constants.TICK_RATE_MS)
           \/ exists now, rd = RWallTick now /\ ct = now - timeStart s))
  \/ sameGame (applyReducer rows gp s rd) s.
Proof.
  destruct rd as [|now|path t| |b]; cbn [applyReducer].
  - right. unfold flap. destruct (gameEnd s); reflexivity.
  - unfold WallClock.tick. destruct (gameEnd s) eqn:E; [right; reflexivity|].
    left. split; [reflexivity|]. eexists _, _. split; [reflexivity|].
    right. exists now. split; reflexivity.
  - right. destruct (WallClock.ghostReducer path t) as [f|] eqn:E;
      [|reflexivity].
    destruct path as [|p0 rest]; cbn [WallClock.ghostReducer] in E;
      [discriminate|].
    injection E as <-.
    destruct (Qle_bool t (totalTimeTravelled p0 rest)); reflexivity.
  - unfold Gated.tick. destruct (gameEnd s) eqn:E; [right; reflexivity|].
    destruct (paused s) eqn:Ep; [right; reflexivity|].
    left. split; [reflexivity|]. eexists _, _. split; [reflexivity|].
    left. repeat split.
  - right. reflexivity.
Qed.

(** A property kept by every reducer holds all along a run. *)
Lemma runState_invariant (rows : list Row) (gp : option (list Path.Point))
    (Inv : State -> Prop) :
  (forall s rd, Inv s -> Inv (applyReducer rows gp s rd)) ->
  forall rds s, Inv s -> Forall Inv (runState rows gp s rds).
Proof.
  intros Hstep. induction rds as [|rd rest IH]; intros s Hs; [constructor|].
  rewrite runState_cons.
  destruct (negb (gameEnd (applyReducer rows gp s rd)));
    repeat constructor; auto.
Qed.

(** The same, for a property that only the ticks can break. *)
Lemma runState_tick_invariant (rows : list Row)
    (gp : option (list Path.Point)) (Inv : State -> Prop) :
  (forall s1 s2, sameGame s1 s2 -> Inv s2 -> Inv s1) ->
  (forall s ct g, Inv s -> Inv (tickResult rows ct s g)) ->
  forall rds s, Inv s -> Forall Inv (runState rows gp s rds).
Proof.
  intros Hsame Htick. apply runState_invariant. intros s rd Hs.
  destruct (applyReducer_cases rows gp s rd) as [(_ & ct & g & -> & _)|H].
  - apply Htick. exact Hs.
  - apply (Hsame _ _ H Hs).
Qed.

Lemma schedule_updatePipe (ct : Q) (q : list Pipe) :
  schedule (map (updatePipe ct) q) = schedule q.
Proof.
  unfold schedule. rewrite map_map. apply map_ext. intros p. reflexivity.
Qed.

Lemma pipeQueue_tickResult (rows : list Row) (ct : Q) (s : State)
    (g : option Q) :
  pipeQueue rows (tickResult rows ct s g) = map (updatePipe ct) (pipeQueue rows s).
Proof. reflexivity. Qed.

Lemma pipeQueue_sameGame (rows : list Row) (s1 s2 : State) :
  sameGame s1 s2 -> pipeQueue rows s1 = pipeQueue rows s2.
Proof.
  intros H. apply sameGame_fields in H. unfold pipeQueue.
  destruct H as (_ & _ & _ & _ & _ & _ & -> & _). reflexivity.
Qed.

(** X1: the schedule is never altered: in every state of a run the
    queue holds the pipes of the CSV, in the order of the CSV, with the
    gap fractions, spawn times and gap bounds [pipeProperties] gave
    them. *)
Theorem schedule_is_immutable (rows : list Row)
    (gp : option (list Path.Point)) (t0 seed0 : Q) (rds : list Reducer) :
  Forall (fun x =>
            schedule (pipeQueue rows x) = schedule (pipeProperties rows)
            /\ length (pipeQueue rows x) = length rows)
         (runState rows gp (initialState t0 seed0) rds).
Proof.
  assert (H : Forall (fun x => schedule (pipeQueue rows x)
                               = schedule (pipeProperties rows))
                     (runState rows gp (initialState t0 seed0) rds)).
  { apply runState_tick_invariant.
    - intros s1 s2 Hs. rewrite (pipeQueue_sameGame rows s1 s2 Hs). auto.
    - intros s ct g Hs. rewrite pipeQueue_tickResult, schedule_updatePipe.
      exact Hs.
    - reflexivity. }
  eapply Forall_impl; [|exact H]. cbn beta. intros x Hx. split; [exact Hx|].
  apply (f_equal (@length _)) in Hx. unfold schedule, pipeProperties in Hx.
  rewrite !length_map in Hx. exact Hx.
Qed.

(** ** The bird and the canvas *)

Lemma updatedBirbPosition_in_canvas (s : State) :
  0 <= updatedBirbPosition s <= floor.
Proof.
  unfold updatedBirbPosition.
  destruct (Qle_bool (newBirbPositionUnbound s) 0) eqn:E0.
  - split; [apply Qle_refl | vm_compute; discriminate].
  - destruct (Qle_bool floor (newBirbPositionUnbound s)) eqn:E1; qbool.
    + split; [vm_compute; discriminate | apply Qle_refl].
    + split; apply Qlt_le_weak; assumption.
Qed.

Lemma overlapping_from_queue (rows : list Row) (ct : Q) (s : State)
    (o : Pipe) :
  overlapping rows ct s = Some o ->
  birdPassing o = true /\ Qle_bool (time o) ct = true
  /\ exists p, In p (pipeQueue rows s) /\ o = updatePipe ct p.
Proof.
  unfold overlapping, currentPipePassing. intros H.
  apply find_some in H as [Hin Hb].
  unfold pipeQueuePass in Hin. apply filter_In in Hin as [Hin Ht].
  unfold pipeQueueUpdated in Hin. apply in_map_iff in Hin as (p & <- & Hp).
  split; [|split; [exact Ht|exists p; split; [exact Hp|reflexivity]]].
  destruct (birdPassing (updatePipe ct p)); [reflexivity|discriminate Hb].
Qed.

Lemma newBirbPosition_in_canvas (rows : list Row) (ct : Q) (s : State) :
  Forall gapInCanvas (pipeQueue rows s) ->
  0 <= newBirbPosition rows ct s <= floor.
Proof.
  intros Hq. pose proof (updatedBirbPosition_in_canvas s) as [Hlo Hhi].
  unfold newBirbPosition.
  destruct (overlapping rows ct s) as [o|] eqn:Ho; [|split; assumption].
  destruct (shouldClamp rows ct s); [|split; assumption].
  apply overlapping_from_queue in Ho as (_ & _ & p & Hp & ->).
  rewrite Forall_forall in Hq. destruct (Hq p Hp) as [Htop Hbot].
  unfold clampToPipeGap. cbn [updatePipe gapTop gapBottom].
  destruct (Qle_bool (updatedBirbPosition s) (gapTop p)) eqn:E1; qbool.
  - split; [lra | exact Htop].
  - destruct (Qle_bool (gapBottom p) (updatedBirbPosition s)) eqn:E2; qbool.
    + split; [exact Hbot | lra].
    + split; assumption.
Qed.

Lemma gapInCanvas_updatePipe (ct : Q) (q : list Pipe) :
  Forall gapInCanvas q -> Forall gapInCanvas (map (updatePipe ct) q).
Proof.
  intros H. apply Forall_map. eapply Forall_impl; [|exact H].
  intros p Hp. exact Hp.
Qed.

(** X2: if every scheduled gap can be reached from inside the canvas
    (its upper bound is not below the floor line and its lower bound is
    not above 0), the bird never leaves the canvas: in every state of a
    run its position lies between 0 and [CANVAS_HEIGHT - Birb.HEIGHT]. *)
Theorem bird_stays_in_canvas (rows : list Row)
    (gp : option (list Path.Point)) (t0 seed0 : Q) (rds : list Reducer)
    (Hgaps : Forall gapInCanvas (pipeProperties rows)) :
  Forall (fun x => 0 <= birbPosition x <= floor)
         (runState rows gp (initialState t0 seed0) rds).
Proof.
  assert (H : Forall (fun x => Forall gapInCanvas (pipeQueue rows x)
                               /\ 0 <= birbPosition x <= floor)
                     (runState rows gp (initialState t0 seed0) rds)).
  { apply runState_tick_invariant.
    - intros s1 s2 Hs. rewrite (pipeQueue_sameGame rows s1 s2 Hs).
      apply sameGame_fields in Hs as (-> & _). auto.
    - intros s ct g [Hq _]. split.
      + rewrite pipeQueue_tickResult. apply gapInCanvas_updatePipe, Hq.
      + apply newBirbPosition_in_canvas, Hq.
    - split; [exact Hgaps|]. cbn. split; vm_compute; discriminate. }
  eapply Forall_impl; [|exact H]. cbn beta. intros x [_ Hx]. exact Hx.
Qed.

Lemma bird_stays_in_canvas_witness :
  Forall gapInCanvas (pipeProperties onePipe)
  /\ Forall (fun x => 0 <= birbPosition x <= floor)
            (runState onePipe None state0 lateRun).
Proof.
  assert (Hg : Forall gapInCanvas (pipeProperties onePipe)).
  { repeat constructor; vm_compute; discriminate. }
  split; [exact Hg|].
  apply (bird_stays_in_canvas onePipe None 0 Bounce.SEED lateRun Hg).
Defined.

(** ** Lives, game over and score *)

(** X3: in every state of a run the game is over exactly when no life
    is left. *)
Theorem game_over_iff_no_lives (rows : list Row)
    (gp : option (list Path.Point)) (t0 seed0 : Q) (rds : list Reducer) :
  Forall (fun x => gameOver x = true <-> birbLives x = 0%Z)
         (runState rows gp (initialState t0 seed0) rds).
Proof.
  assert (H : Forall (fun x => gameOver x = (birbLives x =? 0)%Z)
                     (runState rows gp (initialState t0 seed0) rds)).
  { apply runState_tick_invariant.
    - intros s1 s2 Hs.
      apply sameGame_fields in Hs as (_ & -> & _ & _ & _ & -> & _). auto.
    - intros s ct g _. cbn [tickResult gameOver birbLives].
      unfold newGameOver. destruct (newBirbLives rows ct s =? 0)%Z; reflexivity.
    - reflexivity. }
  eapply Forall_impl; [|exact H]. cbn beta. intros x ->.
  rewrite Z.eqb_eq. reflexivity.
Qed.

Lemma scoreUpdate_le_length (rows : list Row) (ct : Q) (s : State) :
  (scoreUpdate rows ct s <= length (pipeQueue rows s))%nat.
Proof.
  unfold scoreUpdate, pipeQueuePass, pipeQueueUpdated.
  eapply Nat.le_trans; [apply filter_length_le|].
  eapply Nat.le_trans; [apply filter_length_le|].
  rewrite length_map. apply Nat.le_refl.
Qed.

(** X4: the score never exceeds the number of scheduled pipes; with
    fewer than 20 pipes in the CSV (none, in particular) the winning
    score is out of reach and a run can only end by game over. *)
Theorem score_bounded_by_schedule (rows : list Row)
    (gp : option (list Path.Point)) (t0 seed0 : Q) (rds : list Reducer) :
  Forall (fun x => (score x <= length rows)%nat)
         (runState rows gp (initialState t0 seed0) rds)
  /\ ((length rows < WIN_SCORE)%nat ->
      Forall (fun x => gameEnd x = gameOver x)
             (runState rows gp (initialState t0 seed0) rds)).
Proof.
  assert (H : Forall (fun x => (score x <= length (pipeQueue rows x))%nat
                               /\ length (pipeQueue rows x) = length rows)
                     (runState rows gp (initialState t0 seed0) rds)).
  { apply runState_tick_invariant.
    - intros s1 s2 Hs. rewrite (pipeQueue_sameGame rows s1 s2 Hs).
      apply sameGame_fields in Hs as (_ & _ & _ & _ & -> & _). auto.
    - intros s ct g [_ Hlen]. rewrite pipeQueue_tickResult, length_map.
      split; [apply scoreUpdate_le_length | exact Hlen].
    - cbn. unfold pipeProperties. rewrite length_map.
      split; [apply Nat.le_0_l | reflexivity]. }
  split.
  - eapply Forall_impl; [|exact H]. cbn beta. intros x [H1 H2]. lia.
  - intros Hfew. eapply Forall_impl; [|exact H]. cbn beta.
    intros x [H1 H2]. unfold gameEnd.
    destruct (Nat.eqb_spec (score x) WIN_SCORE) as [E|E]; [exfalso; lia|].
    apply orb_false_r.
Qed.

Lemma score_bounded_by_schedule_witness :
  (length onePipe < WIN_SCORE)%nat
  /\ Forall (fun x => gameEnd x = gameOver x)
            (runState onePipe None state0 lateRun).
Proof.
  assert (Hfew : (length onePipe < WIN_SCORE)%nat) by (unfold WIN_SCORE; cbn; lia).
  split; [exact Hfew|].
  apply (score_bounded_by_schedule onePipe None 0 Bounce.SEED lateRun).
  exact Hfew.
Defined.

(** ** The bounce *)

Lemma Qtrunc_nonneg (x : Q) : 0 <= x -> Qtrunc x = Qfloor x.
Proof.
  destruct x as [n d]. unfold Qle, Qtrunc, Qfloor. cbn. intros H.
  apply Z.quot_div_nonneg; lia.
Qed.

(** [x % m] of a non-negative [x] lies in [0, m). *)
Lemma js_rem_range (x m : Q) : 0 <= x -> 0 < m -> 0 <= js_rem x m < m.
Proof.
  intros Hx Hm. unfold js_rem.
  assert (Hq : 0 <= x / m).
  { unfold Qdiv. apply Qmult_le_0_compat; [exact Hx|].
    apply Qlt_le_weak, Qinv_lt_0_compat, Hm. }
  rewrite (Qtrunc_nonneg _ Hq).
  pose proof (Qfloor_le (x / m)) as Hlo.
  pose proof (Qlt_floor (x / m)) as Hhi.
  rewrite inject_Z_plus in Hhi.
  assert (Ex : x == m * (x / m)).
  { rewrite Qmult_div_r; [reflexivity|]. intros E. rewrite E in Hm.
    discriminate Hm. }
  set (q := x / m) in *. set (n := inject_Z (Qfloor q)) in *.
  change (inject_Z 1) with 1 in Hhi.
  assert (H1 : 0 <= m * (q - n)).
  { apply Qmult_le_0_compat; [apply Qlt_le_weak, Hm | lra]. }
  assert (H2 : 0 < m * (n + 1 - q)).
  { apply Qmult_lt_0_compat; [exact Hm | lra]. }
  split; [rewrite Ex at 1 | rewrite Ex]; lra.
Qed.

Lemma hash_range (seed : Q) :
  0 <= seed -> 0 <= RNG.hash seed < RNG.m.
Proof.
  intros H. unfold RNG.hash. apply js_rem_range; [|reflexivity].
  apply binary64_nonneg.
  assert (0 <= binary64 (RNG.a * seed)).
  { apply binary64_nonneg, Qmult_le_0_compat;
      [vm_compute; discriminate | exact H]. }
  unfold RNG.c. lra.
Qed.

Lemma scale_range_loose (h : Q) :
  0 <= h < RNG.m -> -1 <= RNG.scale h < 1 + 2 / (RNG.m - 1).
Proof.
  unfold RNG.scale, RNG.m. intros [H0 H1].
  assert (E : 2 * h / (2147483648 - 1) == 2 * h * (1 # 2147483647)).
  { unfold Qdiv. reflexivity. }
  assert (E2 : 2 / (2147483648 - 1) == (2 # 2147483647)) by reflexivity.
  rewrite E, E2. split; lra.
Qed.

Lemma hash_of_integer (seed : Q) :
  (exists z, seed == inject_Z z) -> 0 <= seed ->
  exists z, (0 <= z <= 2147483647)%Z /\ RNG.hash seed == inject_Z z.
Proof.
  intros [z Hz] H0.
  assert (Hz0 : (0 <= z)%Z).
  { rewrite Hz in H0. change 0 with (inject_Z 0) in H0.
    rewrite <- Zle_Qle in H0. exact H0. }
  destruct (hash_integer z Hz0) as (h & Hh & Eh).
  exists h. split; [exact Hh|].
  rewrite (hash_compat _ _ Hz). exact Eh.
Qed.

Lemma bounce_values (rows : list Row) (ct : Q) (s : State) :
  collideFrame rows ct s = true ->
  bounce rows ct s == Bounce.MEAN + Bounce.SPREAD * RNG.scale (RNG.hash (rngSeed s)).
Proof.
  intros Hc. unfold bounce, r, seed1. rewrite Hc. reflexivity.
Qed.

(** The velocity a colliding tick stores, from a non-negative seed. *)
Lemma bounce_velocity_bounds (rows : list Row) (ct : Q) (s : State)
    (g : option Q) :
  0 <= rngSeed s -> collideFrame rows ct s = true ->
  (hitCanvasTop s || hitTopSidePipe rows ct s = true ->
   4 <= birbVelocity (tickResult rows ct s g) < 12 + (8 # 2147483647))
  /\ (hitCanvasTop s || hitTopSidePipe rows ct s = false ->
      - (12 + (8 # 2147483647)) < birbVelocity (tickResult rows ct s g) <= -4).
Proof.
  intros Hseed Hc.
  pose proof (scale_range_loose _ (hash_range _ Hseed)) as Hs.
  pose proof (bounce_values rows ct s Hc) as Hb.
  assert (E3 : 2 / (RNG.m - 1) == (2 # 2147483647)) by reflexivity.
  rewrite E3 in Hs. unfold Bounce.MEAN, Bounce.SPREAD in Hb.
  cbn [tickResult birbVelocity]. unfold newBirbVelocity. rewrite Hc.
  cbn [negb]. split; intros ->; rewrite Hb; split; lra.
Qed.

(** X5: a colliding tick advances the seed by one [hash] step and sets
    the velocity to the bounce: downwards (positive) when the bird is at
    the top of the canvas or hit the upper part of a pipe, upwards
    otherwise.  With a non-negative seed the new seed lies in [0, 2^31)
    and the speed is at least 4 and below 12 + 8/(2^31 - 1); with a
    non-negative integer seed the speed is at most 12. *)
Theorem bounce_after_collision (rows : list Row) (ct : Q) (s : State)
    (g : option Q)
    (Hseed : 0 <= rngSeed s) (Hc : collideFrame rows ct s = true) :
  rngSeed (tickResult rows ct s g) = RNG.hash (rngSeed s)
  /\ 0 <= rngSeed (tickResult rows ct s g) < RNG.m
  /\ (hitCanvasTop s || hitTopSidePipe rows ct s = true ->
      4 <= birbVelocity (tickResult rows ct s g) < 12 + 8 / (RNG.m - 1))
  /\ (hitCanvasTop s || hitTopSidePipe rows ct s = false ->
      - (12 + 8 / (RNG.m - 1)) < birbVelocity (tickResult rows ct s g) <= -4)
  /\ ((exists z, rngSeed s == inject_Z z) ->
      -12 <= birbVelocity (tickResult rows ct s g) <= 12).
Proof.
  pose proof (hash_range _ Hseed) as Hh.
  pose proof (scale_range_loose _ Hh) as Hs.
  pose proof (bounce_values rows ct s Hc) as Hb.
  assert (E2 : 8 / (RNG.m - 1) == (8 # 2147483647)) by reflexivity.
  assert (E3 : 2 / (RNG.m - 1) == (2 # 2147483647)) by reflexivity.
  rewrite E3 in Hs. unfold Bounce.MEAN, Bounce.SPREAD in Hb.
  cbn [tickResult rngSeed birbVelocity].
  unfold rngSeed2, seed1, newBirbVelocity. rewrite Hc. cbn [negb].
  split; [reflexivity|]. split; [exact Hh|].
  split; [|split].
  - intros ->. rewrite Hb, E2. split; lra.
  - intros ->. rewrite Hb, E2. split; lra.
  - intros Hz. destruct (hash_of_integer _ Hz Hseed) as (z & Hzr & Ez).
    assert (Hr : -1 <= RNG.scale (RNG.hash (rngSeed s)) <= 1).
    { apply scale_range. rewrite Ez. unfold RNG.m. split.
      - change 0 with (inject_Z 0). rewrite <- Zle_Qle. lia.
      - change (2147483648 - 1) with (inject_Z 2147483647).
        rewrite <- Zle_Qle. lia. }
    destruct (hitCanvasTop s || hitTopSidePipe rows ct s); rewrite Hb;
      split; lra.
Qed.

Lemma bounce_after_collision_witness :
  0 <= rngSeed (fold_left (applyReducer [] None) (wallTicks 23) state0)
  /\ collideFrame [] 384 (fold_left (applyReducer [] None) (wallTicks 23) state0)
     = true
  /\ - (12 + 8 / (RNG.m - 1))
     < birbVelocity
         (tickResult [] 384
            (fold_left (applyReducer [] None) (wallTicks 23) state0) None)
     <= -4.
Proof.
  assert (Hseed : 0 <= rngSeed
                         (fold_left (applyReducer [] None) (wallTicks 23) state0))
    by (vm_compute; discriminate).
  assert (Hc : collideFrame [] 384
                 (fold_left (applyReducer [] None) (wallTicks 23) state0) = true)
    by (vm_compute; reflexivity).
  split; [exact Hseed|]. split; [exact Hc|].
  apply (bounce_after_collision [] 384 _ None Hseed Hc).
  vm_compute. reflexivity.
Defined.

(** X6: the seed of a run stays non-negative when the initial seed is,
    and stays a non-negative integer when the initial seed is one (as
    [Bounce.SEED] is), so that every bounce of such a run has a speed
    between 4 and 12. *)
Theorem seed_stays_in_range (rows : list Row)
    (gp : option (list Path.Point)) (t0 seed0 : Q) (rds : list Reducer)
    (Hseed : 0 <= seed0) :
  Forall (fun x => 0 <= rngSeed x)
         (runState rows gp (initialState t0 seed0) rds)
  /\ ((exists z, seed0 == inject_Z z) ->
      Forall (fun x => exists z, (0 <= z)%Z /\ rngSeed x == inject_Z z)
             (runState rows gp (initialState t0 seed0) rds)).
Proof.
  split.
  - apply runState_tick_invariant.
    + intros s1 s2 Hs.
      apply sameGame_fields in Hs as (_ & _ & _ & _ & _ & _ & _ & _ & -> & _).
      auto.
    + intros s ct g Hs. cbn [tickResult rngSeed]. unfold rngSeed2, seed1.
      destruct (collideFrame rows ct s); [|exact Hs].
      apply hash_range, Hs.
    + exact Hseed.
  - intros [z0 Hz0]. apply runState_tick_invariant.
    + intros s1 s2 Hs.
      apply sameGame_fields in Hs as (_ & _ & _ & _ & _ & _ & _ & _ & -> & _).
      auto.
    + intros s ct g (z & Hz & Ez). cbn [tickResult rngSeed].
      unfold rngSeed2, seed1.
      destruct (collideFrame rows ct s); [|exists z; split; assumption].
      assert (H0 : 0 <= rngSeed s).
      { rewrite Ez. change 0 with (inject_Z 0). rewrite <- Zle_Qle. exact Hz. }
      destruct (hash_of_integer (rngSeed s) (ex_intro _ z Ez) H0)
        as (z' & Hz' & Ez').
      exists z'. split; [lia | exact Ez'].
    + exists z0. split; [|exact Hz0].
      rewrite Hz0 in Hseed. change 0 with (inject_Z 0) in Hseed.
      rewrite <- Zle_Qle in Hseed. exact Hseed.
Qed.

Lemma seed_stays_in_range_witness :
  0 <= Bounce.SEED
  /\ Forall (fun x => 0 <= rngSeed x) (runState [] None state0 (wallTicks 30)).
Proof.
  assert (H : 0 <= Bounce.SEED) by (vm_compute; discriminate).
  split; [exact H|].
  apply (seed_stays_in_range [] None 0 Bounce.SEED (wallTicks 30) H).
Defined.

(** ** Pipes on screen *)

Lemma clamp01_range (x : Q) : 0 <= clamp01 x <= 1.
Proof.
  unfold clamp01.
  destruct (Qle_bool x 0) eqn:E0; [split; vm_compute; discriminate|].
  destruct (Qle_bool 1 x) eqn:E1; [split; vm_compute; discriminate|].
  qbool. split; apply Qlt_le_weak; assumption.
Qed.

Lemma clamp01_inside (x : Q) : 0 <= x <= 1 -> clamp01 x == x.
Proof.
  intros [H0 H1]. unfold clamp01.
  destruct (Qle_bool x 0) eqn:E0; qbool; [lra|].
  destruct (Qle_bool 1 x) eqn:E1; qbool; [lra|reflexivity].
Qed.

Lemma pipeXposAtAge_range (a : Q) :
  - Constants.PIPE_WIDTH <= pipeXposAtAge a <= Viewport.CANVAS_WIDTH.
Proof.
  unfold pipeXposAtAge. pose proof (clamp01_range (a / travel)) as [H0 H1].
  unfold distance, Viewport.CANVAS_WIDTH, Constants.PIPE_WIDTH. split; lra.
Qed.

Lemma pipeXposAtAge_late (a : Q) :
  travel < a -> pipeXposAtAge a == - Constants.PIPE_WIDTH.
Proof.
  intros H. unfold pipeXposAtAge, clamp01.
  assert (H1 : 1 < a / travel).
  { unfold travel, Constants.PIPE_TRAVEL_MS, Qdiv in *.
    change (/ 3000) with (1 # 3000). lra. }
  destruct (Qle_bool (a / travel) 0) eqn:E0; qbool; [lra|].
  destruct (Qle_bool 1 (a / travel)) eqn:E1; qbool; [|lra].
  reflexivity.
Qed.

Lemma birdPassing_updatePipe (ct : Q) (p : Pipe) :
  birdPassing (updatePipe ct p) = true <->
  xpos (updatePipe ct p) <= BIRB_REAR
  /\ BIRB_X <= xpos (updatePipe ct p) + Constants.PIPE_WIDTH.
Proof.
  cbn [updatePipe birdPassing xpos].
  destruct (Qle_bool (pipeXposAtAge (ct - time p)) BIRB_REAR) eqn:E1;
    destruct (Qle_bool BIRB_X
                (pipeXposAtAge (ct - time p) + Constants.PIPE_WIDTH)) eqn:E2;
    cbn [andb]; qbool; split; try discriminate; try tauto.
  - intros [_ H]. apply Qlt_not_le in E2. contradiction.
  - intros [H _]. apply Qlt_not_le in E1. contradiction.
  - intros [H _]. apply Qlt_not_le in E1. contradiction.
Qed.

(** X7: the pipes a tick hands to the renderer have spawned, are at most
    [PIPE_TRAVEL_MS] old and sit exactly where the linear motion puts
    them, between [-PIPE_WIDTH] and [CANVAS_WIDTH]; and the pipe a tick
    tests the bird against is always one of them. *)
Theorem collision_pipe_is_drawn (rows : list Row) (ct : Q) (s : State)
    (g : option Q) :
  pipeRendering (tickResult rows ct s g) = Some (nextPipe rows ct s)
  /\ Forall (fun p =>
               time p <= ct
               /\ 0 <= age p <= Constants.PIPE_TRAVEL_MS
               /\ xpos p == Viewport.CANVAS_WIDTH
                            - (Viewport.CANVAS_WIDTH + Constants.PIPE_WIDTH)
                              * (age p / Constants.PIPE_TRAVEL_MS)
               /\ - Constants.PIPE_WIDTH <= xpos p <= Viewport.CANVAS_WIDTH)
            (nextPipe rows ct s)
  /\ (forall o, overlapping rows ct s = Some o -> In o (nextPipe rows ct s)).
Proof.
  split; [reflexivity|]. split.
  - apply Forall_forall. intros p Hp. unfold nextPipe in Hp.
    apply filter_In in Hp as [Hp Hage].
    apply andb_true_iff in Hage as [Ha0 Ha1].
    unfold pipeQueuePass in Hp. apply filter_In in Hp as [Hp Ht].
    unfold pipeQueueUpdated in Hp. apply in_map_iff in Hp as (p0 & <- & _).
    qbool. split; [exact Ht|]. split; [split; assumption|].
    cbn [updatePipe age xpos] in *. split; [|apply pipeXposAtAge_range].
    unfold pipeXposAtAge. rewrite clamp01_inside; [reflexivity|].
    unfold travel, Constants.PIPE_TRAVEL_MS, Qdiv in *.
    change (/ 3000) with (1 # 3000). split; lra.
  - intros o Ho. apply overlapping_from_queue in Ho as (Hb & Ht & p & Hp & ->).
    unfold nextPipe. apply filter_In. split.
    + unfold pipeQueuePass. apply filter_In. split; [|exact Ht].
      unfold pipeQueueUpdated. apply in_map. exact Hp.
    + apply birdPassing_updatePipe in Hb as [_ Hb].
      cbn [updatePipe age xpos time] in *. qbool.
      apply andb_true_iff. split; apply Qle_bool_iff; [lra|].
      apply Qnot_lt_le. intros Hlate.
      rewrite (pipeXposAtAge_late _ Hlate) in Hb.
      vm_compute in Hb. apply Hb. reflexivity.
Qed.

Lemma collision_pipe_is_drawn_witness :
  exists o,
    overlapping onePipe 2000 piercing = Some o
    /\ In o (nextPipe onePipe 2000 piercing).
Proof.
  destruct (overlapping onePipe 2000 piercing) as [o|] eqn:Ho;
    [|vm_compute in Ho; discriminate].
  exists o. split; [reflexivity|].
  apply (collision_pipe_is_drawn onePipe 2000 piercing None). exact Ho.
Defined.

(** ** Passed pipes *)

(** The same as [runState_tick_invariant], for a property that needs
    the clock not to run backwards. *)
Lemma runState_clock_invariant (rows : list Row)
    (gp : option (list Path.Point)) (Inv : State -> Prop) :
  (forall s1 s2, sameGame s1 s2 -> Inv s2 -> Inv s1) ->
  (forall s ct g, Inv s -> elapsedTime s <= ct ->
                  Inv (tickResult rows ct s g)) ->
  forall rds s,
    Inv s -> clockMonotone rows gp s rds ->
    Forall Inv (runState rows gp s rds).
Proof.
  intros Hsame Htick. induction rds as [|rd rest IH]; intros s Hs Hclock;
    [constructor|].
  destruct Hclock as [Hrd Hrest].
  assert (Hs' : Inv (applyReducer rows gp s rd)).
  { destruct (applyReducer_cases rows gp s rd)
      as [(_ & ct & g & E & Hct)|H]; [|apply (Hsame _ _ H Hs)].
    rewrite E. apply Htick; [exact Hs|].
    destruct Hct as [(_ & _ & ->)|(now & -> & ->)]; [|exact Hrd].
    unfold Constants.TICK_RATE_MS. lra. }
  rewrite runState_cons.
  destruct (negb (gameEnd (applyReducer rows gp s rd)));
    repeat constructor; auto.
Qed.

Lemma passedBehind_tick (rows : list Row) (s : State) (ct : Q)
    (g : option Q) :
  passedBehind rows s -> elapsedTime s <= ct ->
  passedBehind rows (tickResult rows ct s g).
Proof.
  unfold passedBehind. intros H Hct. rewrite pipeQueue_tickResult.
  apply Forall_map. eapply Forall_impl; [|exact H]. cbn beta.
  intros p Hp. cbn [tickResult elapsedTime updatePipe passed time].
  unfold Qgt_bool.
  destruct (Qle_bool BIRB_X (pipeXposAtAge (ct - time p)
                             + Constants.PIPE_WIDTH)) eqn:E; cbn [negb].
  - intros Hpassed. specialize (Hp Hpassed).
    assert (pipeXposAtAge (ct - time p)
            <= pipeXposAtAge (elapsedTime s - time p))
      by (apply pipeXposAtAge_mono; lra).
    lra.
  - intros _. qbool. exact E.
Qed.

(** X8: a pipe that counts for the score is never in the bird's way
    again: along a run whose clock does not run backwards, the pipe a
    tick tests the bird against never has [passed] set. *)
Theorem passed_pipe_never_hit (rows : list Row)
    (gp : option (list Path.Point)) (t0 seed0 : Q) (rds : list Reducer)
    (Hclock : clockMonotone rows gp (initialState t0 seed0) rds) :
  Forall (fun x =>
            forall ct o,
              elapsedTime x <= ct ->
              overlapping rows ct x = Some o -> passed o = false)
         (initialState t0 seed0
            :: runState rows gp (initialState t0 seed0) rds).
Proof.
  assert (H0 : passedBehind rows (initialState t0 seed0)).
  { unfold passedBehind, pipeQueue, pipeProperties. cbn [initialState pipeRead].
    apply Forall_map, Forall_forall. intros [[gy gh] t] _. discriminate. }
  assert (H : Forall (passedBehind rows)
                     (initialState t0 seed0
                        :: runState rows gp (initialState t0 seed0) rds)).
  { constructor; [exact H0|].
    apply runState_clock_invariant; [| |exact H0|exact Hclock].
    - intros s1 s2 Hs. unfold passedBehind.
      rewrite (pipeQueue_sameGame rows s1 s2 Hs).
      apply sameGame_fields in Hs as (_ & _ & _ & -> & _). auto.
    - intros s ct g. apply passedBehind_tick. }
  eapply Forall_impl; [|exact H]. cbn beta. intros x Hx ct o Hct Ho.
  apply overlapping_from_queue in Ho as (Hb & _ & p & Hp & ->).
  apply (passedBehind_tick rows x ct None) in Hx; [|exact Hct].
  unfold passedBehind in Hx. rewrite pipeQueue_tickResult in Hx.
  rewrite Forall_forall in Hx.
  specialize (Hx (updatePipe ct p) (in_map _ _ _ Hp)).
  destruct (passed (updatePipe ct p)) eqn:E; [|reflexivity].
  specialize (Hx eq_refl).
  apply birdPassing_updatePipe in Hb as [_ Hb].
  cbn [tickResult elapsedTime updatePipe time xpos] in *. lra.
Qed.

Lemma passed_pipe_never_hit_witness :
  clockMonotone onePipe None state0 lateRun
  /\ Forall (fun x =>
               forall ct o,
                 elapsedTime x <= ct ->
                 overlapping onePipe ct x = Some o -> passed o = false)
            (state0 :: runState onePipe None state0 lateRun).
Proof.
  assert (Hclock : clockMonotone onePipe None state0 lateRun).
  { vm_compute. repeat split; discriminate. }
  split; [exact Hclock|].
  apply (passed_pipe_never_hit onePipe None 0 Bounce.SEED lateRun Hclock).
Defined.

(** ** The hit test and the drawing *)

Lemma outsideGapY_iff (p : Pipe) (y : Q) :
  outsideGapY p y = true <-> y <= gapTop p \/ gapBottom p <= y.
Proof.
  unfold outsideGapY. rewrite orb_true_iff, !Qle_bool_iff. reflexivity.
Qed.

(** X9: the hit test is the intersection test of the drawn sprites.
    For a pipe whose gap bounds are the ones [pipeProperties] computes
    from its fractions, moved to its place at any time, and a bird at a
    height inside the canvas: the pipe overlaps the bird's horizontal
    span with the bird outside the gap exactly when the bird's image
    shares a point with the upper or with the lower [rect] drawn for
    the pipe. *)
Theorem hit_test_matches_drawing (ct y : Q) (p : Pipe)
    (Hgap : gapFromFractions p) (Hy : 0 <= y <= floor) :
  (birdPassing (updatePipe ct p) = true
   /\ outsideGapY (updatePipe ct p) y = true)
  <-> (touches (Render.birbImg y)
               (fst (Render.createWholePipe (updatePipe ct p)))
       \/ touches (Render.birbImg y)
                  (snd (Render.createWholePipe (updatePipe ct p)))).
Proof.
  rewrite birdPassing_updatePipe, outsideGapY_iff.
  destruct Hgap as [Htop Hbot]. destruct Hy as [Hy0 Hy1].
  unfold touches, Render.createWholePipe, Render.birbImg.
  cbn [fst snd Render.x Render.y Render.width Render.height
       updatePipe gapTop gapBottom gapY gapHeight xpos].
  set (X := pipeXposAtAge (ct - time p)).
  assert (EX : BIRB_X == 159) by reflexivity.
  assert (ER : BIRB_REAR == 201) by reflexivity.
  assert (EB : Viewport.CANVAS_WIDTH * (3 # 10) - Birb.WIDTH / 2 == 159)
    by reflexivity.
  unfold floor, Viewport.CANVAS_HEIGHT, Birb.HEIGHT, Birb.WIDTH,
    Constants.PIPE_WIDTH, Qdiv in *.
  change (/ 2) with (1 # 2) in *.
  split.
  - intros [[H1 H2] [H|H]]; [left|right]; repeat split; lra.
  - intros [(H1 & H2 & H3 & H4)|(H1 & H2 & H3 & H4)];
      (split; [split; lra|]); [left|right]; lra.
Qed.

Lemma gapFromFractions_pipeOfRow (r : Row) : gapFromFractions (pipeOfRow r).
Proof. destruct r as [[gy gh] t]. split; reflexivity. Qed.

Lemma hit_test_matches_drawing_witness :
  gapFromFractions (pipeOfRow (3 # 4, 1 # 4, 0)) /\ 0 <= 100 <= floor
  /\ touches (Render.birbImg 100)
             (fst (Render.createWholePipe
                     (updatePipe 2000 (pipeOfRow (3 # 4, 1 # 4, 0))))).
Proof.
  assert (Hy : 0 <= 100 <= floor) by (split; vm_compute; discriminate).
  split; [apply gapFromFractions_pipeOfRow|]. split; [exact Hy|].
  destruct (proj1 (hit_test_matches_drawing 2000 100 _
                     (gapFromFractions_pipeOfRow (3 # 4, 1 # 4, 0)) Hy))
    as [H|H].
  - split; vm_compute; reflexivity.
  - exact H.
  - exfalso. destruct H as (_ & _ & _ & H). vm_compute in H. apply H.
    reflexivity.
Defined.

(** ** The index search of the ghost *)

Lemma reduceIdx_spec (path : list Path.Point) (t : Q) :
  forall i best,
    (reduceIdx path t i best = best
     /\ Forall (fun pt => Qle_bool (Path.t pt) t = false) path)
    \/ exists k pt,
        reduceIdx path t i best = (i + k)%nat
        /\ nth_error path k = Some pt
        /\ Qle_bool (Path.t pt) t = true
        /\ forall k' pt',
            (k < k')%nat -> nth_error path k' = Some pt' ->
            Qle_bool (Path.t pt') t = false.
Proof.
  induction path as [|p0 rest IH]; intros i best; cbn [reduceIdx].
  - left. split; [reflexivity | constructor].
  - destruct (IH (S i) (if Qle_bool (Path.t p0) t then i else best))
      as [[E Hall]|(k & pt & E & Hk & Hle & Hlast)].
    + destruct (Qle_bool (Path.t p0) t) eqn:E0.
      * right. exists 0%nat, p0. rewrite E, Nat.add_0_r.
        repeat split; try assumption.
        intros [|k'] pt' Hlt Hnth; [lia|]. cbn in Hnth.
        rewrite Forall_forall in Hall. apply Hall.
        apply (nth_error_In _ _ Hnth).
      * left. split; [exact E | constructor; assumption].
    + right. exists (S k), pt. rewrite E. split; [lia|].
      split; [exact Hk|]. split; [exact Hle|].
      intros [|k'] pt' Hlt Hnth; [lia|]. cbn in Hnth.
      apply (Hlast k' pt'); [lia | exact Hnth].
Qed.

(** X10: [lastIdxLE] returns the largest index whose sample is not
    later than [t], and 0 when every sample is later than [t]. *)
Theorem lastIdxLE_is_latest (path : list Path.Point) (t : Q) :
  (Forall (fun pt => t < Path.t pt) path -> lastIdxLE path t = 0%nat)
  /\ (forall k pt,
        nth_error path k = Some pt -> Path.t pt <= t ->
        (k <= lastIdxLE path t)%nat
        /\ exists ptj,
            nth_error path (lastIdxLE path t) = Some ptj
            /\ Path.t ptj <= t).
Proof.
  unfold lastIdxLE.
  destruct (reduceIdx_spec path t 0 0)
    as [[E Hall]|(j & ptj & E & Hj & Hle & Hlast)].
  - split; [intros _; exact E|].
    intros k pt Hk Hpt. exfalso.
    rewrite Forall_forall in Hall.
    specialize (Hall pt (nth_error_In _ _ Hk)). qbool. lra.
  - cbn [Nat.add] in E. rewrite E. split.
    + intros Hall. exfalso. rewrite Forall_forall in Hall.
      specialize (Hall ptj (nth_error_In _ _ Hj)). qbool. lra.
    + intros k pt Hk Hpt. split.
      * destruct (Nat.le_gt_cases k j) as [H|H]; [exact H|].
        specialize (Hlast k pt H Hk). qbool. lra.
      * exists ptj. qbool. split; assumption.
Qed.

Lemma lastIdxLE_is_latest_witness :
  Path.t (Path.mkPoint 16 195) <= 20
  /\ (1 <= lastIdxLE examplePath 20)%nat.
Proof.
  assert (H : Path.t (Path.mkPoint 16 195) <= 20) by (vm_compute; discriminate).
  split; [exact H|].
  apply (proj2 (lastIdxLE_is_latest examplePath 20) 1%nat
           (Path.mkPoint 16 195) eq_refl H).
Defined.

(** ** Pausing and resuming *)

Lemma stateAfter_stepEvent (rows : list Row) (gp : option (list Path.Point))
    (s0 : State) (es : list Event) :
  fold_left (stepEvent rows gp) es
    (gate0, applyReducer rows gp s0 (RPauseState false))
  = (gateAfter es, stateAfter rows gp s0 es).
Proof.
  induction es as [|e es IH] using rev_ind; [reflexivity|].
  rewrite fold_left_app, IH. cbn [fold_left]. unfold stepEvent. cbn [fst snd].
  rewrite stateAfter_snoc, gateAfter_snoc. reflexivity.
Qed.

Lemma paused_events_dropped (rows : list Row)
    (gp : option (list Path.Point)) (mid : list Event) :
  Forall (fun e => e <> KeyP) mid ->
  forall a s,
    fold_left (stepEvent rows gp) mid
      ({| pauseStateAcc := a; gatedGameAcc := true |}, s)
    = ({| pauseStateAcc := a; gatedGameAcc := true |}, s).
Proof.
  induction 1 as [|e mid He _ IH]; intros a s; [reflexivity|].
  cbn [fold_left]. destruct e; [| congruence |]; apply IH.
Qed.

(** X11: pausing and resuming leaves no trace in the game: if the run
    is not paused, a P press, any space presses and interval ticks, and
    a second P press together leave the state exactly as it was, so the
    events that follow produce the states they would have produced
    without the pause. *)
Theorem pause_resume_is_invisible (rows : list Row)
    (gp : option (list Path.Point)) (s0 : State)
    (es1 mid es2 : list Event)
    (Hrun : paused (stateAfter rows gp s0 es1) = false)
    (Hmid : Forall (fun e => e <> KeyP) mid) :
  stateAfter rows gp s0 (es1 ++ KeyP :: mid ++ KeyP :: es2)
  = stateAfter rows gp s0 (es1 ++ es2).
Proof.
  destruct (gate_in_sync rows gp s0 es1) as [H1 H2].
  rewrite Hrun in H2. rewrite <- H2 in H1.
  assert (E : forall es,
             stateAfter rows gp s0 es
             = snd (fold_left (stepEvent rows gp) es
                      (gate0, applyReducer rows gp s0 (RPauseState false)))).
  { intros es. rewrite stateAfter_stepEvent. reflexivity. }
  set (c1 := (gateAfter es1, stateAfter rows gp s0 es1)).
  assert (Hc : fold_left (stepEvent rows gp) (KeyP :: mid ++ [KeyP]) c1 = c1).
  { subst c1. destruct (gateAfter es1) as [a b].
    cbn [pauseStateAcc gatedGameAcc] in H1, H2. subst a b.
    cbn [fold_left]. rewrite fold_left_app.
    change (stepEvent rows gp
              ({| pauseStateAcc := false; gatedGameAcc := false |},
               stateAfter rows gp s0 es1) KeyP)
      with ({| pauseStateAcc := true; gatedGameAcc := true |},
            Gated.pauseState true (stateAfter rows gp s0 es1)).
    rewrite (paused_events_dropped rows gp mid Hmid).
    cbn [fold_left]. unfold stepEvent.
    cbn [fst snd emit fold_left negb pauseStateAcc gatedGameAcc applyReducer].
    f_equal. unfold Gated.pauseState.
    destruct (stateAfter rows gp s0 es1). cbn in Hrun. subst. reflexivity. }
  replace (KeyP :: mid ++ KeyP :: es2) with ((KeyP :: mid ++ [KeyP]) ++ es2)
    by (cbn [app]; rewrite <- app_assoc; reflexivity).
  rewrite !E, !fold_left_app, stateAfter_stepEvent. fold c1.
  rewrite Hc. reflexivity.
Qed.

Lemma pause_resume_is_invisible_witness :
  stateAfter onePipe None state0
    ([Interval] ++ KeyP :: [KeySpace; Interval] ++ KeyP :: [Interval])
  = stateAfter onePipe None state0 ([Interval] ++ [Interval]).
Proof.
  apply (pause_resume_is_invisible onePipe None state0
           [Interval] [KeySpace; Interval] [Interval]).
  - reflexivity.
  - repeat constructor; discriminate.
Defined.

(** ** The recording of a run *)

Lemma reducersOf_gated (es : list Event) :
  Forall (fun rd => isGated rd = true) (reducersOf es).
Proof.
  unfold reducersOf. constructor; [reflexivity|].
  generalize gate0. induction es as [|e es IH]; intros g; [constructor|].
  cbn [emitAll]. destruct (emit g e) as [g' rds] eqn:E.
  apply Forall_app. split; [|apply IH].
  destruct e; cbn [emit] in E; injection E as <- <-;
    try destruct (gatedGameAcc g); repeat constructor.
Qed.

Lemma plateau_refl (x : State) : plateau x x.
Proof. split; [apply Qle_refl | reflexivity]. Qed.

Lemma plateau_trans (x y z : State) :
  plateau x y -> plateau y z -> plateau x z.
Proof.
  intros [H1 H2] [H3 H4]. split; [lra|].
  intros H. rewrite H4 by lra. apply H2. lra.
Qed.

(** A reducer of the gated revision either advances the elapsed time by
    the tick period or keeps elapsed time, position and ghost. *)
Lemma gated_step (rows : list Row) (gp : option (list Path.Point))
    (s : State) (rd : Reducer) :
  isGated rd = true ->
  (applyReducer rows gp s rd
   = tickResult rows (elapsedTime s + Constants.TICK_RATE_MS) s
       (Gated.ghostBirbPosAt gp (elapsedTime s + Constants.TICK_RATE_MS) s))
  \/ (elapsedTime (applyReducer rows gp s rd) = elapsedTime s
      /\ birbPosition (applyReducer rows gp s rd) = birbPosition s
      /\ ghostBirbPos (applyReducer rows gp s rd) = ghostBirbPos s).
Proof.
  destruct rd as [|now|path t| |b]; cbn [isGated applyReducer];
    try discriminate; intros _.
  - right. unfold flap. destruct (gameEnd s); repeat split.
  - unfold Gated.tick. destruct (gameEnd s || paused s);
      [right; repeat split | left; reflexivity].
  - right. repeat split.
Qed.

Lemma gated_step_plateau (rows : list Row) (gp : option (list Path.Point))
    (s : State) (rd : Reducer) :
  isGated rd = true -> plateau s (applyReducer rows gp s rd).
Proof.
  intros H. destruct (gated_step rows gp s rd H) as [->|(E1 & E2 & _)].
  - cbn [tickResult elapsedTime]. unfold plateau, Constants.TICK_RATE_MS.
    cbn [tickResult elapsedTime]. split; [lra|]. intros Hle. exfalso. lra.
  - unfold plateau. rewrite E1, E2. split; [apply Qle_refl | reflexivity].
Qed.

Lemma run_plateau (rows : list Row) (gp : option (list Path.Point))
    (rds : list Reducer) :
  Forall (fun rd => isGated rd = true) rds ->
  forall s,
    Forall (plateau s) (runState rows gp s rds)
    /\ StronglySorted plateau (runState rows gp s rds).
Proof.
  induction 1 as [|rd rest Hrd _ IH]; intros s; [split; constructor|].
  rewrite runState_cons.
  pose proof (gated_step_plateau rows gp s rd Hrd) as Hstep.
  destruct (IH (applyReducer rows gp s rd)) as [Hall Hsorted].
  destruct (negb (gameEnd (applyReducer rows gp s rd))).
  - split.
    + constructor; [exact Hstep|].
      eapply Forall_impl; [|exact Hall]. intros z Hz.
      apply (plateau_trans _ _ _ Hstep Hz).
    + constructor; assumption.
  - split.
    + constructor; [exact Hstep | constructor].
    + constructor; constructor.
Qed.

Lemma gatedRun_head (rows : list Row) (prev : option (list Path.Point))
    (s0 : State) (es : list Event) :
  exists rest, gatedRun rows prev s0 es = Gated.pauseState false s0 :: rest.
Proof.
  unfold gatedRun, reducersOf. rewrite runState_cons. cbn [applyReducer].
  destruct (negb (gameEnd (Gated.pauseState false s0))); eexists; reflexivity.
Qed.

(** X12: the recording of a run of the gated revision starts with the
    sample of the initial state, is sorted by time, and never holds two
    different positions for one time. *)
Theorem recording_is_sorted (rows : list Row)
    (prev : option (list Path.Point)) (s0 : State) (es : list Event) :
  (exists rest,
      currentPath (gatedRun rows prev s0 es) = sample s0 :: rest)
  /\ StronglySorted
       (fun a b =>
          Path.t a <= Path.t b
          /\ (Path.t b <= Path.t a -> Path.y b = Path.y a))
       (currentPath (gatedRun rows prev s0 es)).
Proof.
  split.
  - destruct (gatedRun_head rows prev s0 es) as [rest ->].
    exists (currentPath rest). reflexivity.
  - destruct (run_plateau rows prev (reducersOf es) (reducersOf_gated es) s0)
      as [_ H].
    unfold gatedRun, currentPath.
    induction H as [|x l Hl IH Hx]; cbn [map]; constructor; [exact IH|].
    apply Forall_map. eapply Forall_impl; [|exact Hx].
    intros z Hz. exact Hz.
Qed.

Lemma gatedSession_snoc (rows : list Row) (s0 : State)
    (runs : list (list Event)) (es : list Event) :
  forall prev,
    gatedSession rows s0 prev (runs ++ [es])
    = finalize (gatedSession rows s0 prev runs)
        (currentPath (gatedRun rows (gatedSession rows s0 prev runs) s0 es)).
Proof.
  induction runs as [|r runs IH]; intros prev; [reflexivity|].
  cbn [app gatedSession]. apply IH.
Qed.

(** X13: once a run of the gated revision has ended, [prevPathRef]
    holds the recording of the latest run, whatever it held before, and
    that recording is never empty: its first sample is the one of the
    initial state. *)
Theorem session_holds_last_recording (rows : list Row) (s0 : State)
    (prev : option (list Path.Point)) (runs : list (list Event))
    (es : list Event) :
  gatedSession rows s0 prev (runs ++ [es])
  = Some (currentPath
            (gatedRun rows (gatedSession rows s0 prev runs) s0 es))
  /\ exists rest,
      gatedSession rows s0 prev (runs ++ [es]) = Some (sample s0 :: rest).
Proof.
  rewrite gatedSession_snoc.
  destruct (gatedRun_head rows (gatedSession rows s0 prev runs) s0 es)
    as [rest E].
  rewrite E. cbn [currentPath map finalize]. split; [reflexivity|].
  exists (map sample rest). reflexivity.
Qed.

(** ** Replaying a recording *)

Lemma reduceIdx_app (a b : list Path.Point) (t : Q) :
  forall i best,
    reduceIdx (a ++ b) t i best
    = reduceIdx b t (i + length a) (reduceIdx a t i best).
Proof.
  induction a as [|p0 a IH]; intros i best; cbn [app reduceIdx length].
  - rewrite Nat.add_0_r. reflexivity.
  - rewrite IH. f_equal. lia.
Qed.

(** Over a path that ends with [l], the search ends on a sample of [l]
    as soon as [l] has a sample that is not later than [t]. *)
Lemma reduceIdx_in_suffix (front l : list Path.Point) (t : Q)
    (d : Path.Point) :
  Exists (fun pt => Qle_bool (Path.t pt) t = true) l ->
  In (nth (reduceIdx (front ++ l) t 0 0) (front ++ l) d) l
  /\ Qle_bool (Path.t (nth (reduceIdx (front ++ l) t 0 0) (front ++ l) d)) t
     = true.
Proof.
  intros Hex. rewrite reduceIdx_app. cbn [Nat.add].
  destruct (reduceIdx_spec l t (length front) (reduceIdx front t 0 0))
    as [[_ Hall]|(k & pt & E & Hk & Hle & _)].
  - exfalso. apply Exists_exists in Hex as (pt & Hin & Hle).
    rewrite Forall_forall in Hall. rewrite (Hall pt Hin) in Hle.
    discriminate.
  - rewrite E, app_nth2_plus, (nth_error_nth _ _ _ Hk).
    split; [apply (nth_error_In _ _ Hk) | exact Hle].
Qed.

Lemma last_app_cons (front l : list Path.Point) (e d : Path.Point) :
  In (last (front ++ e :: l) d) (e :: l).
Proof.
  induction front as [|f front IH].
  - cbn [app]. revert e. induction l as [|x l IHl]; intros e.
    + left. reflexivity.
    + right. change (last (e :: x :: l) d) with (last (x :: l) d).
      apply IHl.
  - cbn [app]. destruct (front ++ e :: l) eqn:E.
    + destruct front; discriminate E.
    + change (last (f :: p :: l0) d) with (last (p :: l0) d). exact IH.
Qed.

(** The ghost a tick computes over a path that ends with the samples of
    the states still to come. *)
Lemma ghost_over_future (front : list Path.Point) (x : State)
    (tail : list State) (s : State) :
  Forall (plateau x) tail ->
  Gated.ghostBirbPosAt (Some (front ++ currentPath (x :: tail)))
    (elapsedTime x) s
  = Some (birbPosition x).
Proof.
  intros Htail.
  assert (Hall : forall pt,
             In pt (currentPath (x :: tail)) ->
             elapsedTime x <= Path.t pt
             /\ (Path.t pt <= elapsedTime x -> Path.y pt = birbPosition x)).
  { intros pt Hin. unfold currentPath in Hin.
    apply in_map_iff in Hin as (z & <- & Hz). cbn [sample Path.t Path.y].
    destruct Hz as [<-|Hz]; [apply plateau_refl|].
    rewrite Forall_forall in Htail. apply (Htail z Hz). }
  unfold Gated.ghostBirbPosAt.
  destruct (front ++ currentPath (x :: tail)) as [|p0 prest] eqn:Ep.
  { destruct front; discriminate Ep. }
  rewrite <- Ep. unfold totalTimeTravelled. rewrite <- Ep.
  cbn [currentPath map] in *.
  assert (Htotal : Qle_bool (elapsedTime x)
                     (Path.t (last (front ++ sample x :: map sample tail) p0))
                   = true).
  { apply Qle_bool_iff. apply Hall. apply last_app_cons. }
  rewrite Htotal.
  destruct (reduceIdx_in_suffix front (sample x :: map sample tail)
              (elapsedTime x) p0) as [Hin Hle].
  { left. apply Qle_bool_iff. cbn. apply Qle_refl. }
  f_equal. apply Hall; [exact Hin|]. apply Qle_bool_iff. exact Hle.
Qed.

Lemma replay_aux (rows : list Row) (p : list Path.Point) (e0 : Q)
    (rds : list Reducer) :
  Forall (fun rd => isGated rd = true) rds ->
  forall s front,
    p = front ++ currentPath (runState rows (Some p) s rds) ->
    e0 <= elapsedTime s ->
    (e0 < elapsedTime s -> ghostBirbPos s = Some (birbPosition s)) ->
    Forall (fun x => e0 < elapsedTime x ->
                     ghostBirbPos x = Some (birbPosition x))
           (runState rows (Some p) s rds).
Proof.
  induction 1 as [|rd rest Hrd Hrest IH]; intros s front Hp He Hs;
    [constructor|].
  rewrite runState_cons in Hp |- *.
  set (x := applyReducer rows (Some p) s rd) in *.
  assert (Hx : e0 <= elapsedTime x
               /\ (e0 < elapsedTime x ->
                   ghostBirbPos x = Some (birbPosition x))).
  { destruct (gated_step rows (Some p) s rd Hrd) as [E|(E1 & E2 & E3)];
      fold x in E || fold x in E1, E2, E3.
    - assert (Et : elapsedTime x
                   = elapsedTime s + Constants.TICK_RATE_MS)
        by (rewrite E; reflexivity).
      split; [rewrite Et; unfold Constants.TICK_RATE_MS; lra|]. intros _.
      assert (Eg : ghostBirbPos x
                   = Gated.ghostBirbPosAt (Some p) (elapsedTime x) s)
        by (rewrite Et, E; reflexivity).
      rewrite Eg.
      destruct (negb (gameEnd x)).
      + rewrite Hp at 1. apply ghost_over_future.
        apply (run_plateau rows (Some p) rest Hrest x).
      + rewrite Hp at 1. apply ghost_over_future. constructor.
    - rewrite E1, E2, E3. split; assumption. }
  destruct Hx as [Hx1 Hx2].
  destruct (negb (gameEnd x)); [|repeat constructor; exact Hx2].
  constructor; [exact Hx2|].
  apply (IH x (front ++ [sample x])); [|exact Hx1|exact Hx2].
  rewrite <- app_assoc. exact Hp.
Qed.

Lemma currentPath_sameButGhost (l1 l2 : list State) :
  Forall2 sameButGhost l1 l2 -> currentPath l1 = currentPath l2.
Proof.
  induction 1 as [|x1 x2 l1 l2 Hx _ IH]; [reflexivity|].
  cbn [currentPath map]. f_equal; [|exact IH].
  unfold sameButGhost in Hx. unfold sample.
  apply (f_equal (fun z => (elapsedTime z, birbPosition z))) in Hx.
  cbn in Hx. injection Hx as -> ->. reflexivity.
Qed.

(** X14: replaying one's own recording.  If a run of the gated revision
    gets the same events as the run that was recorded, then in every
    state after its first tick the ghost is exactly where the bird is. *)
Theorem replay_overlays_bird (rows : list Row)
    (prev : option (list Path.Point)) (s0 : State) (es : list Event) :
  Forall (fun x => elapsedTime s0 < elapsedTime x ->
                   ghostBirbPos x = Some (birbPosition x))
         (gatedRun rows
            (Some (currentPath (gatedRun rows prev s0 es))) s0 es).
Proof.
  set (p := currentPath (gatedRun rows prev s0 es)).
  unfold gatedRun.
  apply (replay_aux rows p (elapsedTime s0) (reducersOf es)
           (reducersOf_gated es) s0 []).
  - cbn [app]. subst p. unfold gatedRun.
    apply currentPath_sameButGhost, runState_sameButGhost. reflexivity.
  - apply Qle_refl.
  - intros H. exfalso. apply (Qlt_irrefl _ H).
Qed.

Lemma replay_overlays_bird_witness :
  Forall (fun x => 0 < elapsedTime x ->
                   ghostBirbPos x = Some (birbPosition x))
         (gatedRun onePipe
            (Some (currentPath
                     (gatedRun onePipe None state0
                        [Interval; KeySpace; Interval; KeyP; KeyP; Interval])))
            state0 [Interval; KeySpace; Interval; KeyP; KeyP; Interval]).
Proof.
  apply (replay_overlays_bird onePipe None state0
           [Interval; KeySpace; Interval; KeyP; KeyP; Interval]).
Defined.

(** ** Single ticks *)

Lemma collideFrame_false (rows : list Row) (ct : Q) (s : State) :
  collideFrame rows ct s = false ->
  firstHitThisPipe rows ct s = false
  /\ updatedBirbPosition s = newBirbPositionUnbound s
  /\ 0 < newBirbPositionUnbound s < floor.
Proof.
  unfold collideFrame. intros H. apply orb_false_iff in H as [Hf Hc].
  split; [exact Hf|]. unfold hitCanvas, updatedBirbPosition in *.
  destruct (Qle_bool (newBirbPositionUnbound s) 0) eqn:E0.
  { exfalso. destruct (Qeq_bool 0 floor); [discriminate|].
    change (Qeq_bool 0 0) with true in Hc. discriminate. }
  destruct (Qle_bool floor (newBirbPositionUnbound s)) eqn:E1.
  { exfalso. rewrite (proj2 (Qeq_bool_iff floor floor) (Qeq_refl _)) in Hc.
    discriminate. }
  qbool. split; [reflexivity | split; assumption].
Qed.

(** X15: a tick without collision is free flight: gravity is added to
    the velocity, the new velocity is added to the position, which stays
    strictly inside the canvas, and lives and seed are untouched. *)
Theorem free_flight (rows : list Row) (ct : Q) (s : State) (g : option Q)
    (Hfree : collideFrame rows ct s = false) :
  birbVelocity (tickResult rows ct s g) = birbVelocity s + Birb.GRAVITY
  /\ birbPosition (tickResult rows ct s g)
     = birbPosition s + (birbVelocity s + Birb.GRAVITY)
  /\ 0 < birbPosition (tickResult rows ct s g) < floor
  /\ birbLives (tickResult rows ct s g) = birbLives s
  /\ rngSeed (tickResult rows ct s g) = rngSeed s.
Proof.
  destruct (collideFrame_false rows ct s Hfree) as (Hf & Hu & Hin).
  assert (Hpos : birbPosition (tickResult rows ct s g)
                 = newBirbPositionUnbound s).
  { cbn [tickResult birbPosition]. unfold newBirbPosition, shouldClamp.
    rewrite Hf, Hu. destruct (overlapping rows ct s); reflexivity. }
  split; [|split; [|split; [|split]]].
  - cbn [tickResult birbVelocity]. unfold newBirbVelocity.
    rewrite Hfree. reflexivity.
  - rewrite Hpos. reflexivity.
  - rewrite Hpos. exact Hin.
  - cbn [tickResult birbLives]. rewrite newBirbLives_spec, Hfree. reflexivity.
  - cbn [tickResult rngSeed]. unfold rngSeed2. rewrite Hfree. reflexivity.
Qed.

Lemma free_flight_witness :
  collideFrame onePipe 16 state0 = false
  /\ birbPosition (tickResult onePipe 16 state0 None)
     = 200 + (0 + Birb.GRAVITY).
Proof.
  assert (H : collideFrame onePipe 16 state0 = false) by reflexivity.
  split; [exact H|].
  apply (free_flight onePipe 16 state0 None H).
Defined.

(** X16: a first hit on the tick on which the pipe starts to overlap the
    bird is a side entry: it costs a life, sets the marker to the pipe
    and advances the seed, but the bird keeps the position the
    integration gave it instead of being moved to a gap bound. *)
Theorem side_entry_hit (rows : list Row) (ct : Q) (s : State)
    (g : option Q) (o : Pipe)
    (Hover : overlapping rows ct s = Some o)
    (Hout : outsideGapY o (updatedBirbPosition s) = true)
    (Hfresh : opt_neq (invinciblePipeTime s) (time o) = true)
    (Hprev : prevPassing o = false) :
  isSideEntry rows ct s = true
  /\ birbPosition (tickResult rows ct s g) = updatedBirbPosition s
  /\ birbLives (tickResult rows ct s g) = Z.max 0 (birbLives s - 1)
  /\ invinciblePipeTime (tickResult rows ct s g) = Some (time o)
  /\ rngSeed (tickResult rows ct s g) = RNG.hash (rngSeed s).
Proof.
  assert (Hfirst : firstHitThisPipe rows ct s = true).
  { unfold firstHitThisPipe. rewrite Hover, Hout, Hfresh. reflexivity. }
  assert (Hside : isSideEntry rows ct s = true).
  { unfold isSideEntry. rewrite Hover, Hfirst, Hprev.
    destruct (overlapping_from_queue rows ct s o Hover) as [-> _].
    reflexivity. }
  assert (Hc : collideFrame rows ct s = true).
  { unfold collideFrame. rewrite Hfirst. reflexivity. }
  split; [exact Hside|]. split; [|split; [|split]].
  - cbn [tickResult birbPosition]. unfold newBirbPosition, shouldClamp.
    rewrite Hover, Hfirst, Hside. reflexivity.
  - cbn [tickResult birbLives]. rewrite newBirbLives_spec, Hc. reflexivity.
  - cbn [tickResult invinciblePipeTime]. unfold invinciblePipeTime2.
    rewrite Hover, Hfirst. reflexivity.
  - cbn [tickResult rngSeed]. unfold rngSeed2, seed1. rewrite Hc.
    reflexivity.
Qed.

Lemma side_entry_hit_witness :
  exists o,
    overlapping onePipe 1856 beforeEntry = Some o
    /\ prevPassing o = false
    /\ birbLives (tickResult onePipe 1856 beforeEntry None) = 2%Z
    /\ birbPosition (tickResult onePipe 1856 beforeEntry None)
       = updatedBirbPosition beforeEntry.
Proof.
  destruct (overlapping onePipe 1856 beforeEntry) as [o|] eqn:Hover;
    [|vm_compute in Hover; discriminate].
  exists o.
  assert (Ho : o = updatePipe 1856
                     (updatePipe 1840 (pipeOfRow (3 # 4, 1 # 4, 0)))).
  { unfold overlapping, currentPipePassing in Hover.
    apply find_some in Hover as [Hin _].
    unfold pipeQueuePass in Hin. apply filter_In in Hin as [Hin _].
    cbn in Hin. destruct Hin as [<-|[]]. reflexivity. }
  assert (Hprev : prevPassing o = false)
    by (rewrite Ho; vm_compute; reflexivity).
  destruct (side_entry_hit onePipe 1856 beforeEntry None o Hover)
    as (_ & Hpos & Hlives & _).
  - rewrite Ho. vm_compute. reflexivity.
  - rewrite Ho. vm_compute. reflexivity.
  - exact Hprev.
  - split; [reflexivity|]. split; [exact Hprev|].
    split; [rewrite Hlives; reflexivity | exact Hpos].
Defined.

(** Between two ticks the reducers of the other streams leave the
    bird where it is; a space press sets the velocity to -7 unless the
    game has ended. *)
Lemma between_ticks (rows : list Row) (gp : option (list Path.Point))
    (rds : list Reducer) (s : State) :
  Forall (fun rd => isTick rd = false) rds ->
  birbPosition (fold_left (applyReducer rows gp) rds s) = birbPosition s
  /\ gameEnd (fold_left (applyReducer rows gp) rds s) = gameEnd s
  /\ birbVelocity (fold_left (applyReducer rows gp) rds s)
     = if negb (gameEnd s) && existsb isFlap rds then -7
       else birbVelocity s.
Proof.
  intros H. revert s.
  induction H as [|rd rds Hrd _ IH]; intros s; cbn [fold_left existsb].
  - rewrite andb_false_r. repeat split.
  - destruct (IH (applyReducer rows gp s rd)) as (Hp & Hg & Hv).
    rewrite Hp, Hg, Hv. clear IH Hp Hg Hv.
    destruct rd as [|now|path t| |b]; cbn [isTick] in Hrd;
      try discriminate; cbn [applyReducer isFlap orb].
    + unfold flap. destruct (gameEnd s) eqn:E.
      * rewrite E. repeat split.
      * assert (E' : gameEnd (set_birbVelocity (-7) s) = false) by exact E.
        rewrite E'. cbn [negb andb birbVelocity set_birbVelocity birbPosition].
        destruct (existsb isFlap rds); repeat split.
    + destruct (WallClock.ghostReducer path t) as [f|] eqn:E;
        [|repeat split].
      destruct path as [|p0 rest]; cbn [WallClock.ghostReducer] in E;
        [discriminate|].
      injection E as <-.
      destruct (Qle_bool t (totalTimeTravelled p0 rest)); repeat split.
    + repeat split.
Qed.

(** Whether the coming tick is a canvas hit, from the top or the bottom
    edge, by the velocity the bird carries. *)
Lemma hitCanvas_at (s : State) (y v : Q) :
  birbPosition s = y -> birbVelocity s = v ->
  (y == 0 -> 4 <= v -> v < 13 -> hitCanvas s = false)
  /\ (y == floor -> -13 < v -> v <= -4 -> hitCanvas s = false)
  /\ (y == 0 -> v <= -1 -> hitCanvas s = true).
Proof.
  intros <- <-.
  unfold hitCanvas, updatedBirbPosition, newBirbPositionUnbound,
    updatedBirbVelocity.
  set (y := birbPosition s). set (v := birbVelocity s).
  unfold floor, Viewport.CANVAS_HEIGHT, Birb.HEIGHT, Birb.GRAVITY.
  split; [|split]; intros Ey H1; [intros H2 | intros H2 |].
  - destruct (Qle_bool (y + (v + (6 # 10))) 0) eqn:A; qbool; [lra|].
    destruct (Qle_bool (400 - 30) (y + (v + (6 # 10)))) eqn:B; qbool; [lra|].
    destruct (Qeq_bool (y + (v + (6 # 10))) (400 - 30)) eqn:C; qbool; [lra|].
    destruct (Qeq_bool (y + (v + (6 # 10))) 0) eqn:D; qbool; [lra|].
    reflexivity.
  - destruct (Qle_bool (y + (v + (6 # 10))) 0) eqn:A; qbool; [lra|].
    destruct (Qle_bool (400 - 30) (y + (v + (6 # 10)))) eqn:B; qbool; [lra|].
    destruct (Qeq_bool (y + (v + (6 # 10))) (400 - 30)) eqn:C; qbool; [lra|].
    destruct (Qeq_bool (y + (v + (6 # 10))) 0) eqn:D; qbool; [lra|].
    reflexivity.
  - destruct (Qle_bool (y + (v + (6 # 10))) 0) eqn:A; qbool; [|lra].
    reflexivity.
Qed.

(** X17: the canvas does not charge twice in a row unless the player
    flaps into the ceiling.  After a tick that hit the top or the bottom
    of the canvas without a first pipe hit, from a state with a
    non-negative seed, the bounce takes the bird off the edge: a tick
    that follows directly is no canvas hit.  With reducers of the other
    streams (space presses, pause toggles, ghost updates) in between,
    the coming tick is a canvas hit exactly when the hit was on the top
    edge, the game has not ended, and a space press is among them: the
    press replaces the bounce by the velocity -7, which drives the bird
    into the ceiling again, while after a hit on the bottom edge it only
    lifts the bird further. *)
Theorem no_second_canvas_hit (rows : list Row)
    (gp : option (list Path.Point)) (ct : Q) (s : State) (g : option Q)
    (Hseed : 0 <= rngSeed s)
    (Hhit : hitCanvas s = true)
    (Hnopipe : firstHitThisPipe rows ct s = false) :
  hitCanvas (tickResult rows ct s g) = false
  /\ (forall rds,
        Forall (fun rd => isTick rd = false) rds ->
        hitCanvas (fold_left (applyReducer rows gp) rds
                             (tickResult rows ct s g))
        = hitCanvasTop s
          && negb (gameEnd (tickResult rows ct s g))
          && existsb isFlap rds).
Proof.
  assert (Hc : collideFrame rows ct s = true).
  { unfold collideFrame. rewrite Hhit. apply orb_true_r. }
  destruct (bounce_velocity_bounds rows ct s g Hseed Hc) as (Hdown & Hup).
  assert (Htop : hitTopSidePipe rows ct s = false).
  { unfold hitTopSidePipe. rewrite Hnopipe.
    destruct (overlapping rows ct s); reflexivity. }
  rewrite Htop, orb_false_r in Hdown, Hup.
  assert (Hpos : birbPosition (tickResult rows ct s g)
                 = updatedBirbPosition s).
  { cbn [tickResult birbPosition]. unfold newBirbPosition, shouldClamp.
    rewrite Hnopipe. destruct (overlapping rows ct s); reflexivity. }
  assert (Hy : (hitCanvasTop s = true /\ updatedBirbPosition s == 0)
               \/ (hitCanvasTop s = false
                   /\ updatedBirbPosition s == floor)).
  { unfold hitCanvas, hitCanvasTop in *.
    destruct (Qeq_bool (updatedBirbPosition s) 0) eqn:E0; qbool;
      [left; split; auto|].
    right. split; [reflexivity|].
    destruct (Qeq_bool (updatedBirbPosition s) floor) eqn:E1; qbool;
      [exact E1|discriminate]. }
  assert (Hall : forall rds,
             Forall (fun rd => isTick rd = false) rds ->
             hitCanvas (fold_left (applyReducer rows gp) rds
                                  (tickResult rows ct s g))
             = hitCanvasTop s
               && negb (gameEnd (tickResult rows ct s g))
               && existsb isFlap rds).
  { intros rds Hrds.
    destruct (between_ticks rows gp rds (tickResult rows ct s g) Hrds)
      as (Hp & _ & Hv).
    rewrite Hpos in Hp.
    destruct (hitCanvas_at _ _ _ Hp Hv) as (Hoff0 & Hofff & Hon).
    destruct Hy as [[Ht Ey]|[Ht Ey]]; rewrite Ht; cbn [andb].
    - specialize (Hdown Ht).
      destruct (negb (gameEnd (tickResult rows ct s g))
                && existsb isFlap rds).
      + apply Hon; [exact Ey | lra].
      + apply Hoff0; [exact Ey | lra | lra].
    - specialize (Hup Ht).
      destruct (negb (gameEnd (tickResult rows ct s g))
                && existsb isFlap rds).
      + apply Hofff; [exact Ey | lra | lra].
      + apply Hofff; [exact Ey | lra | lra]. }
  split; [|exact Hall].
  change (hitCanvas (fold_left (applyReducer rows gp) []
                               (tickResult rows ct s g)) = false).
  rewrite (Hall [] (Forall_nil _)). cbn [existsb]. apply andb_false_r.
Qed.

Lemma no_second_canvas_hit_witness :
  let top := stateAfter [] None state0 climb in
  let bottom := fold_left (applyReducer [] None) (wallTicks 23) state0 in
  (0 <= rngSeed top /\ hitCanvas top = true /\ hitCanvasTop top = true
   /\ hitCanvas (tickResult [] 512 top None) = false
   /\ hitCanvas (fold_left (applyReducer [] None)
                           [RPauseState true; RPauseState false]
                           (tickResult [] 512 top None)) = false
   /\ hitCanvas (fold_left (applyReducer [] None) [RFlap]
                           (tickResult [] 512 top None)) = true)
  /\ (0 <= rngSeed bottom /\ hitCanvas bottom = true
      /\ hitCanvasTop bottom = false
      /\ hitCanvas (tickResult [] 384 bottom None) = false
      /\ hitCanvas (fold_left (applyReducer [] None) [RFlap]
                              (tickResult [] 384 bottom None)) = false).
Proof.
  cbv zeta. split.
  - assert (Hseed : 0 <= rngSeed (stateAfter [] None state0 climb))
      by (vm_compute; discriminate).
    assert (Hhit : hitCanvas (stateAfter [] None state0 climb) = true)
      by (vm_compute; reflexivity).
    assert (Htop : hitCanvasTop (stateAfter [] None state0 climb) = true)
      by (vm_compute; reflexivity).
    assert (Hend : gameEnd (tickResult [] 512
                              (stateAfter [] None state0 climb) None)
                   = false)
      by (vm_compute; reflexivity).
    destruct (no_second_canvas_hit [] None 512 _ None Hseed Hhit
                                   eq_refl) as [Hnext Hall].
    split; [exact Hseed|]. split; [exact Hhit|]. split; [exact Htop|].
    split; [exact Hnext|]. split.
    + rewrite Hall; [|repeat constructor].
      rewrite Htop, Hend. reflexivity.
    + rewrite Hall; [|repeat constructor].
      rewrite Htop, Hend. reflexivity.
  - assert (Hseed : 0 <= rngSeed
                           (fold_left (applyReducer [] None) (wallTicks 23)
                                      state0))
      by (vm_compute; discriminate).
    assert (Hhit : hitCanvas
                     (fold_left (applyReducer [] None) (wallTicks 23) state0)
                   = true)
      by (vm_compute; reflexivity).
    assert (Htop : hitCanvasTop
                     (fold_left (applyReducer [] None) (wallTicks 23) state0)
                   = false)
      by (vm_compute; reflexivity).
    destruct (no_second_canvas_hit [] None 384 _ None Hseed Hhit
                                   eq_refl) as [Hnext Hall].
    split; [exact Hseed|]. split; [exact Hhit|]. split; [exact Htop|].
    split; [exact Hnext|].
    rewrite Hall; [|repeat constructor].
    rewrite Htop. reflexivity.
Defined.

(** ** The ghost reducer stream *)

Lemma takeWhileInside_complete (total : Q) (l : list Q) :
  Exists (fun t => total < t) l ->
  exists ts tlast,
    takeWhileInside total l = ts ++ [tlast]
    /\ Forall (fun t => t <= total) ts /\ total < tlast.
Proof.
  induction l as [|t l IH]; intros Hex; [inversion Hex|].
  cbn [takeWhileInside]. destruct (Qle_bool t total) eqn:E; qbool.
  - inversion Hex as [? ? Hlt|? ? Hex']; subst; [lra|].
    destruct (IH Hex') as (ts & tlast & -> & Hts & Hlast).
    exists (t :: ts), tlast. repeat split; [constructor|]; assumption.
  - exists [], t. repeat split; [constructor | exact E].
Qed.

Lemma takeWhileInside_stable (total : Q) (l l' : list Q) :
  Exists (fun t => total < t) l ->
  takeWhileInside total (l ++ l') = takeWhileInside total l.
Proof.
  induction l as [|t l IH]; intros Hex; [inversion Hex|].
  cbn [app takeWhileInside]. destruct (Qle_bool t total) eqn:E; qbool;
    [|reflexivity].
  inversion Hex as [? ? Hlt|? ? Hex']; subst; [lra|].
  rewrite (IH Hex'). reflexivity.
Qed.

Lemma intervalTimes_app (n m : nat) :
  (n <= m)%nat ->
  intervalTimes m
  = intervalTimes n
    ++ map (fun i => inject_Z (Z.of_nat i) * Constants.TICK_RATE_MS)
           (seq n (m - n)).
Proof.
  intros H. unfold intervalTimes. rewrite <- map_app, <- seq_app.
  replace (n + (m - n))%nat with m by lia. reflexivity.
Qed.

Lemma ghost_reducer_inside (p0 : Path.Point) (rest : list Path.Point)
    (t : Q) (rows : list Row) (gp : option (list Path.Point)) (s : State) :
  t <= totalTimeTravelled p0 rest ->
  ghostBirbPos (applyReducer rows gp s (RGhost (p0 :: rest) t))
  = Some (Path.y (nth (lastIdxLE (p0 :: rest) t) (p0 :: rest) p0)).
Proof.
  intros H. apply Qle_bool_iff in H.
  cbn [applyReducer WallClock.ghostReducer]. rewrite H. reflexivity.
Qed.

Lemma ghost_reducer_outside (p0 : Path.Point) (rest : list Path.Point)
    (t : Q) (rows : list Row) (gp : option (list Path.Point)) (s : State) :
  totalTimeTravelled p0 rest < t ->
  ghostBirbPos (applyReducer rows gp s (RGhost (p0 :: rest) t)) = None.
Proof.
  intros H. apply Qle_bool_false in H.
  cbn [applyReducer WallClock.ghostReducer]. rewrite H. reflexivity.
Qed.

(** X18: the ghost stream of src/main.ts ends by clearing the ghost.
    Once the interval has fired past the last recorded time, the stream
    is complete and later firings add nothing; every reducer but the
    last shows the sample [lastIdxLE] selects, and the last one, the
    first past the recording, sets [ghostBirbPos] to undefined. *)
Theorem ghost_stream_ends_by_clearing (p0 : Path.Point)
    (rest : list Path.Point) (k n : nat)
    (Hk : (k < n)%nat)
    (Hpast : totalTimeTravelled p0 rest
             < inject_Z (Z.of_nat k) * Constants.TICK_RATE_MS) :
  exists ts tlast,
    makeGhostReducers (p0 :: rest) n
    = map (RGhost (p0 :: rest)) ts ++ [RGhost (p0 :: rest) tlast]
    /\ Forall (fun t =>
                 forall rows gp s,
                   ghostBirbPos (applyReducer rows gp s (RGhost (p0 :: rest) t))
                   = Some (Path.y (nth (lastIdxLE (p0 :: rest) t)
                                       (p0 :: rest) p0)))
              ts
    /\ (forall rows gp s,
          ghostBirbPos (applyReducer rows gp s (RGhost (p0 :: rest) tlast))
          = None)
    /\ (forall m, (n <= m)%nat ->
                  makeGhostReducers (p0 :: rest) m
                  = makeGhostReducers (p0 :: rest) n).
Proof.
  assert (Hex : Exists (fun t => totalTimeTravelled p0 rest < t)
                       (intervalTimes n)).
  { apply Exists_exists.
    exists (inject_Z (Z.of_nat k) * Constants.TICK_RATE_MS).
    split; [|exact Hpast]. unfold intervalTimes.
    apply in_map_iff. exists k. split; [reflexivity|].
    apply in_seq. lia. }
  destruct (takeWhileInside_complete _ _ Hex) as (ts & tlast & E & Hts & Hlast).
  exists ts, tlast. unfold makeGhostReducers. rewrite E, map_app.
  split; [reflexivity|]. split; [|split].
  - eapply Forall_impl; [|exact Hts]. cbn beta. intros t Ht rows gp s.
    apply ghost_reducer_inside. exact Ht.
  - intros rows gp s. apply ghost_reducer_outside. exact Hlast.
  - intros m Hm. rewrite (intervalTimes_app n m Hm).
    rewrite takeWhileInside_stable by exact Hex. rewrite E, map_app.
    reflexivity.
Qed.

Lemma ghost_stream_ends_by_clearing_witness :
  makeGhostReducers examplePath 10 = makeGhostReducers examplePath 4
  /\ length (makeGhostReducers examplePath 4) = 4%nat.
Proof.
  destruct (ghost_stream_ends_by_clearing
              (Path.mkPoint 0 200)
              [Path.mkPoint 16 195; Path.mkPoint 32 190] 3 4
              ltac:(lia) ltac:(vm_compute; reflexivity))
    as (ts & tlast & _ & _ & _ & Hstable).
  split; [apply Hstable; lia | reflexivity].
Defined.

(** ** Pipes and score as functions of the elapsed time *)

Lemma schedule_times (q1 q2 : list Pipe) :
  schedule q1 = schedule q2 -> map time q1 = map time q2.
Proof.
  unfold schedule. intros H.
  apply (f_equal (map (fun x : Q * Q * Q * Q * Q => snd (fst (fst x))))) in H.
  rewrite !map_map in H. exact H.
Qed.

(** X19: pipes follow the clock.  In every state of a run that a tick
    has produced, the age and the horizontal position of each pipe are
    the ones its scheduled spawn time and the elapsed time of the state
    give; nothing is accumulated from tick to tick. *)
Theorem pipes_follow_the_clock (rows : list Row)
    (gp : option (list Path.Point)) (t0 seed0 : Q) (rds : list Reducer) :
  Forall (fun x =>
            pipeRead x <> None ->
            map (fun p => (age p, xpos p)) (pipeQueue rows x)
            = map (fun p => (elapsedTime x - time p,
                             pipeXposAtAge (elapsedTime x - time p)))
                  (pipeProperties rows))
         (runState rows gp (initialState t0 seed0) rds).
Proof.
  assert (H : Forall
                (fun x =>
                   schedule (pipeQueue rows x) = schedule (pipeProperties rows)
                   /\ (pipeRead x <> None ->
                       map (fun p => (age p, xpos p)) (pipeQueue rows x)
                       = map (fun p => (elapsedTime x - time p,
                                        pipeXposAtAge (elapsedTime x - time p)))
                             (pipeProperties rows)))
                (runState rows gp (initialState t0 seed0) rds)).
  { apply runState_tick_invariant.
    - intros s1 s2 Hs. rewrite (pipeQueue_sameGame rows s1 s2 Hs).
      apply sameGame_fields in Hs
        as (_ & _ & _ & -> & _ & _ & -> & _). auto.
    - intros s ct g [Hsched _]. rewrite pipeQueue_tickResult.
      split; [rewrite schedule_updatePipe; exact Hsched|]. intros _.
      cbn [tickResult elapsedTime]. rewrite map_map.
      cbn [updatePipe age xpos].
      change (map (fun p => (ct - time p, pipeXposAtAge (ct - time p)))
                  (pipeQueue rows s))
        with (map (fun p => (fun t => (ct - t, pipeXposAtAge (ct - t)))
                              (time p))
                  (pipeQueue rows s)).
      rewrite <- (map_map time (fun t => (ct - t, pipeXposAtAge (ct - t)))).
      rewrite (schedule_times _ _ Hsched), map_map. reflexivity.
    - split; [reflexivity|]. intros H. exfalso. apply H. reflexivity. }
  eapply Forall_impl; [|exact H]. cbn beta. intros x [_ Hx]. exact Hx.
Qed.

Lemma behind_threshold (a : Q) :
  Qgt_bool BIRB_X (pipeXposAtAge a + Constants.PIPE_WIDTH)
  = Qgt_bool a PASS_AGE.
Proof.
  unfold Qgt_bool, pipeXposAtAge, clamp01, PASS_AGE.
  assert (EX : BIRB_X == 159) by reflexivity.
  assert (Ea : a / travel == a * (1 # 3000)) by reflexivity.
  unfold distance, Viewport.CANVAS_WIDTH, Constants.PIPE_WIDTH.
  destruct (Qle_bool a (29460 # 13)) eqn:E;
    destruct (Qle_bool (a / travel) 0) eqn:E0;
    [| destruct (Qle_bool 1 (a / travel)) eqn:E1 | |
     destruct (Qle_bool 1 (a / travel)) eqn:E1];
    cbn [negb]; qbool;
    try (apply negb_false_iff, Qle_bool_iff);
    try (apply negb_true_iff, Qle_bool_false);
    rewrite ?Ea in *; lra.
Qed.

Lemma filter_length_times (f : Q -> bool) (q1 q2 : list Pipe) :
  map time q1 = map time q2 ->
  length (filter (fun p => f (time p)) q1)
  = length (filter (fun p => f (time p)) q2).
Proof.
  revert q2. induction q1 as [|p q1 IH]; intros [|p2 q2] H;
    try discriminate H; [reflexivity|].
  cbn [map] in H. injection H as Ht Hrest. cbn [filter]. rewrite Ht.
  destruct (f (time p2)); cbn [length]; rewrite (IH q2 Hrest); reflexivity.
Qed.

Lemma scoreUpdate_closed_form (rows : list Row) (ct : Q) (s : State) :
  passedBehind rows s -> elapsedTime s <= ct ->
  scoreUpdate rows ct s
  = length (filter (fun p => Qgt_bool (ct - time p) PASS_AGE)
                   (pipeQueue rows s)).
Proof.
  unfold passedBehind, scoreUpdate, pipeQueuePass, pipeQueueUpdated.
  intros H Hct. induction (pipeQueue rows s) as [|p q IH]; [reflexivity|].
  inversion H as [|? ? Hp Hq]; subst. specialize (IH Hq).
  cbn [map filter]. change (time (updatePipe ct p)) with (time p).
  assert (Epassed : passed (updatePipe ct p)
                    = Qgt_bool (ct - time p) PASS_AGE || passed p).
  { cbn [updatePipe passed]. rewrite behind_threshold.
    destruct (Qgt_bool (ct - time p) PASS_AGE); reflexivity. }
  assert (Hmono : passed p = true -> Qgt_bool (ct - time p) PASS_AGE = true).
  { intros Hpassed. specialize (Hp Hpassed).
    rewrite <- behind_threshold. unfold Qgt_bool.
    apply negb_true_iff, Qle_bool_false.
    assert (pipeXposAtAge (ct - time p)
            <= pipeXposAtAge (elapsedTime s - time p))
      by (apply pipeXposAtAge_mono; lra).
    lra. }
  destruct (Qgt_bool (ct - time p) PASS_AGE) eqn:Eb.
  - assert (Ht : Qle_bool (time p) ct = true).
    { unfold Qgt_bool, PASS_AGE in Eb. apply negb_true_iff in Eb. qbool.
      apply Qle_bool_iff. lra. }
    rewrite Ht. cbn [filter]. rewrite Epassed. cbn [orb Bool.eqb length].
    rewrite IH. reflexivity.
  - assert (Hp' : passed p = false).
    { destruct (passed p); [|reflexivity]. discriminate (Hmono eq_refl). }
    destruct (Qle_bool (time p) ct); [|exact IH].
    cbn [filter]. rewrite Epassed, Hp'. cbn [orb Bool.eqb]. exact IH.
Qed.

(** X20: the score is a function of the elapsed time.  Along a run
    whose clock does not run backwards, in every state that a tick has
    produced the score is the number of scheduled pipes that are older
    than 29460/13 ms (about 2266 ms, the age at which a pipe gets behind
    the bird). *)
Theorem score_closed_form (rows : list Row)
    (gp : option (list Path.Point)) (t0 seed0 : Q) (rds : list Reducer)
    (Hclock : clockMonotone rows gp (initialState t0 seed0) rds) :
  Forall (fun x =>
            pipeRead x <> None ->
            score x = pipesBehind rows (elapsedTime x))
         (runState rows gp (initialState t0 seed0) rds).
Proof.
  assert (H : Forall
                (fun x =>
                   passedBehind rows x
                   /\ schedule (pipeQueue rows x)
                      = schedule (pipeProperties rows)
                   /\ (pipeRead x <> None ->
                       score x = pipesBehind rows (elapsedTime x)))
                (runState rows gp (initialState t0 seed0) rds)).
  { apply runState_clock_invariant; [| | |exact Hclock].
    - intros s1 s2 Hs. unfold passedBehind.
      rewrite (pipeQueue_sameGame rows s1 s2 Hs).
      apply sameGame_fields in Hs
        as (_ & _ & _ & -> & -> & _ & -> & _). auto.
    - intros s ct g (Hb & Hsched & _) Hct.
      split; [apply passedBehind_tick; assumption|].
      rewrite pipeQueue_tickResult, schedule_updatePipe.
      split; [exact Hsched|]. intros _.
      cbn [tickResult score elapsedTime].
      rewrite (scoreUpdate_closed_form rows ct s Hb Hct).
      unfold pipesBehind.
      apply (filter_length_times (fun t => Qgt_bool (ct - t) PASS_AGE)).
      apply schedule_times, Hsched.
    - split; [|split; [reflexivity|]].
      + unfold passedBehind, pipeQueue, pipeProperties.
        cbn [initialState pipeRead].
        apply Forall_map, Forall_forall. intros [[gy gh] t] _. discriminate.
      + intros H. exfalso. apply H. reflexivity. }
  eapply Forall_impl; [|exact H]. cbn beta. intros x (_ & _ & Hx). exact Hx.
Qed.

Lemma score_closed_form_witness :
  clockMonotone onePipe None state0 lateRun
  /\ Forall (fun x =>
               pipeRead x <> None ->
               score x = pipesBehind onePipe (elapsedTime x))
            (runState onePipe None state0 lateRun).
Proof.
  assert (Hclock : clockMonotone onePipe None state0 lateRun).
  { vm_compute. repeat split; discriminate. }
  split; [exact Hclock|].
  apply (score_closed_form onePipe None 0 Bounce.SEED lateRun Hclock).
Defined.

Lemma pipes_follow_the_clock_witness :
  Forall (fun x =>
            pipeRead x <> None ->
            map (fun p => (age p, xpos p)) (pipeQueue onePipe x)
            = map (fun p => (elapsedTime x - time p,
                             pipeXposAtAge (elapsedTime x - time p)))
                  (pipeProperties onePipe))
         (runState onePipe None state0 lateRun).
Proof.
  apply (pipes_follow_the_clock onePipe None 0 Bounce.SEED lateRun).
Defined.
